(** * tv_analysis_clean: cleaning and aggregation pipeline

    A shallow embedding of the notebook [tv_analysis_clean.py]: the pandas
    table is a list of rows, every cell of a stage is a function from table
    to table, and the library operations the notebook calls ([dropna],
    [duplicated], [drop_duplicates], [replace], boolean-mask selection,
    [round], [groupby], [nunique], [mean], [sort_values]) are written out
    with the behaviour pandas documents for them.

    Modelling choices.
    - A missing cell (NaN) is [None].
    - A [float64] cell is an exact rational ([Q]).  Two cells hold the same
      number when they are [Qeq]; this is what [duplicated] and [groupby]
      compare.  Comparison and rounding to an integer are the same on a
      float and on the rational it denotes.  Sums, means and quotients are
      not: binary64 rounds them.  They are exact, and [mean] and the chart
      compute what the code computes, on the tables of [votes_in_range]
      (vote counts that are non-negative integers, few and small enough);
      every statement below about a value of [avg_votes] or about the chart
      carries that hypothesis.
    - [Series.round()] is numpy's [rint]: nearest integer, ties to even.
    - The rows carry the nine columns under their snake_case names, as
      after the column rename of stage 2.1; the rename itself is modelled
      on the list of header names.
    - A raised exception is [None] in the result of the function that
      raises. *)

From Stdlib Require Import List ZArith QArith Qabs Qround String Bool Lia Lqa.
From Stdlib Require Import Sorted Permutation SetoidList.
Import ListNotations.

Local Open Scope Z_scope.

(** ** Data model *)

Record Row : Type := mkRow {
  name : option string;
  character : option string;
  role : option string;
  title : option string;
  type : option string;
  release_year : Z;
  genres : option string;
  imdb_score : option Q;
  imdb_votes : option Q
}.

Definition DataFrame : Type := list Row.

(** Cell comparison as [duplicated] does it: NaN equals NaN. *)
Definition str_cell_eqb (a b : option string) : bool :=
  match a, b with
  | Some x, Some y => String.eqb x y
  | None, None => true
  | _, _ => false
  end.

Definition num_cell_eqb (a b : option Q) : bool :=
  match a, b with
  | Some x, Some y => Qeq_bool x y
  | None, None => true
  | _, _ => false
  end.

Definition row_eqb (a b : Row) : bool :=
  str_cell_eqb (name a) (name b) &&
  str_cell_eqb (character a) (character b) &&
  str_cell_eqb (role a) (role b) &&
  str_cell_eqb (title a) (title b) &&
  str_cell_eqb (type a) (type b) &&
  Z.eqb (release_year a) (release_year b) &&
  str_cell_eqb (genres a) (genres b) &&
  num_cell_eqb (imdb_score a) (imdb_score b) &&
  num_cell_eqb (imdb_votes a) (imdb_votes b).

Definition same_row (a b : Row) : Prop := row_eqb a b = true.

(** ** Stage 2.2: missing values *)

Definition isna {A : Type} (c : option A) : bool :=
  match c with None => true | Some _ => false end.

Definition isna_imdb_score (r : Row) : bool := isna (imdb_score r).
Definition isna_imdb_votes (r : Row) : bool := isna (imdb_votes r).

(** [df.isna().sum()] for one column. *)
Definition isna_sum (col : Row -> bool) (df : DataFrame) : nat :=
  List.length (filter col df).

(** [df.dropna(subset=...)]: a row goes when any listed column is missing. *)
Definition dropna (subset : list (Row -> bool)) (df : DataFrame) : DataFrame :=
  filter (fun r => negb (existsb (fun col => col r) subset)) df.

(** ** Stage 2.3: duplicates *)

(** [df.duplicated()]: a row is marked when an equal row came before it. *)
Fixpoint duplicated_from (seen : list Row) (df : DataFrame) : list bool :=
  match df with
  | [] => []
  | r :: rest =>
      existsb (row_eqb r) seen :: duplicated_from (r :: seen) rest
  end.

Definition duplicated (df : DataFrame) : list bool := duplicated_from [] df.

Definition duplicate_count (df : DataFrame) : nat :=
  List.length (filter (fun b : bool => b) (duplicated df)).

(** Boolean-mask selection [df[mask]]. *)
Fixpoint select_mask (df : DataFrame) (mask : list bool) : DataFrame :=
  match df, mask with
  | r :: rest, b :: mask' =>
      if b then r :: select_mask rest mask' else select_mask rest mask'
  | _, _ => []
  end.

(** The rows kept when the rows of [seen] came before the table. *)
Definition drop_duplicates_from (seen : list Row) (df : DataFrame) : DataFrame :=
  select_mask df (map negb (duplicated_from seen df)).

(** [df.drop_duplicates()] is [df[~df.duplicated()]]. *)
Definition drop_duplicates (df : DataFrame) : DataFrame :=
  drop_duplicates_from [] df.

(** ** Stage 2.4: categorical values *)

(** [Series.replace(to_replace, value)] on one cell. *)
Definition replace (to_replace : list string) (value : string)
    (c : option string) : option string :=
  match c with
  | Some s => if existsb (String.eqb s) to_replace then Some value else Some s
  | None => None
  end.

Definition set_type (r : Row) (t : option string) : Row :=
  mkRow (name r) (character r) (role r) (title r) t
        (release_year r) (genres r) (imdb_score r) (imdb_votes r).

(** The notebook's function assigns the replaced column back into the global
    [df] and returns it; the table is threaded explicitly here. *)
Definition replace_wrong_shows (wrong_shows_list : list string)
    (correct_show : string) (df : DataFrame) : DataFrame :=
  map (fun r => set_type r (replace wrong_shows_list correct_show (type r))) df.

Definition wrong_shows_list : list string :=
  ["shows"; "SHOW"; "tv show"; "tv shows"; "tv series"; "tv"]%string.

Definition correct_show : string := "SHOW"%string.

(** Stages 2.2 to 2.4 in the notebook's order. *)
Definition preprocess (df : DataFrame) : DataFrame :=
  replace_wrong_shows wrong_shows_list correct_show
    (drop_duplicates (dropna [isna_imdb_score; isna_imdb_votes] df)).

(** ** Stage 3.1: the Golden Age filter *)

Definition is_show (r : Row) : bool := str_cell_eqb (type r) (Some "SHOW"%string).

(** [df[df['release_year'] >= 1999]], then [[... ['type'] == 'SHOW']]. *)
Definition golden_age_shows (df : DataFrame) : DataFrame :=
  filter is_show (filter (fun r => 1999 <=? release_year r) df).

(** ** Stage 3.2: rounding *)

(** Nearest integer, ties to the even neighbour. *)
Definition round_half_even (q : Q) : Z :=
  let d := Zpos (Qden q) in
  let fl := Qnum q / d in
  match 2 * (Qnum q mod d) ?= d with
  | Lt => fl
  | Gt => fl + 1
  | Eq => if Z.even fl then fl else fl + 1
  end.

(** [Series.round()] keeps the float type: the result is an integral number. *)
Definition series_round (q : Q) : Q := inject_Z (round_half_even q).

Definition set_imdb_score (r : Row) (s : option Q) : Row :=
  mkRow (name r) (character r) (role r) (title r) (type r)
        (release_year r) (genres r) s (imdb_votes r).

Definition round_scores (gas : DataFrame) : DataFrame :=
  map (fun r => set_imdb_score r (option_map series_round (imdb_score r))) gas.

(** [golden_age_shows] after the cell of stage 3.2. *)
Definition golden_age_shows_rounded (df : DataFrame) : DataFrame :=
  round_scores (golden_age_shows df).

(** ** Grouping by [imdb_score] *)

(** The group keys: the distinct present scores, ascending. *)
Fixpoint insert_key (k : Q) (ks : list Q) : list Q :=
  match ks with
  | [] => [k]
  | k' :: rest =>
      match (k ?= k')%Q with
      | Lt => k :: ks
      | Eq => ks
      | Gt => k' :: insert_key k rest
      end
  end.

Definition group_keys (df : DataFrame) : list Q :=
  fold_right
    (fun r ks => match imdb_score r with
                 | Some s => insert_key s ks
                 | None => ks
                 end)
    [] df.

Definition has_score (k : Q) (r : Row) : bool :=
  match imdb_score r with
  | Some s => Qeq_bool s k
  | None => false
  end.

Definition group_rows (k : Q) (df : DataFrame) : DataFrame :=
  filter (has_score k) df.

(** ** Stage 3.3: distinct titles per score *)

Fixpoint unique_strings (l : list (option string)) : list string :=
  match l with
  | [] => []
  | None :: rest => unique_strings rest
  | Some s :: rest =>
      let u := unique_strings rest in
      if existsb (String.eqb s) u then u else s :: u
  end.

(** [Series.nunique()]: missing values are not counted. *)
Definition nunique (l : list (option string)) : nat :=
  List.length (unique_strings l).

Definition score_counts (gas : DataFrame) : list (Q * nat) :=
  map (fun k => (k, nunique (map title (group_rows k gas)))) (group_keys gas).

(** ** Stage 3.4: average votes by score *)

Definition in_range (r : Row) : bool :=
  match imdb_score r with
  | Some s => Qle_bool 4 s && Qle_bool s 9
  | None => false
  end.

Definition analysis_df (gas : DataFrame) : DataFrame := filter in_range gas.

Fixpoint present (l : list (option Q)) : list Q :=
  match l with
  | [] => []
  | Some v :: rest => v :: present rest
  | None :: rest => present rest
  end.

Definition Qsum (l : list Q) : Q := fold_right Qplus 0%Q l.

(** [mean()] skips missing values; a group with no value left gives NaN.
    The sum and the quotient are exact here; binary64 agrees with them, up
    to the rounding to an integer that follows, on the groups of a table of
    [votes_in_range]. *)
Definition mean (l : list (option Q)) : option Q :=
  match present l with
  | [] => None
  | v :: vs => Some (Qsum (v :: vs) / inject_Z (Z.of_nat (List.length (v :: vs))))%Q
  end.

Definition bucket_avg (k : Q) (adf : DataFrame) : option Q :=
  option_map series_round (mean (map imdb_votes (group_rows k adf))).

(** [groupby('imdb_score')['imdb_votes'].mean().round().reset_index()]:
    one (imdb_score, avg_votes) row per group, keys ascending. *)
Definition avg_votes_by_score (adf : DataFrame) : list (Q * option Q) :=
  map (fun k => (k, bucket_avg k adf)) (group_keys adf).

(** [sort_values('avg_votes', ascending=False)]: the rows with a value in
    descending order, the rows without one after them.  Rows with equal
    values keep their order; no statement below depends on it. *)
Fixpoint insert_desc (p : Q * Q) (l : list (Q * Q)) : list (Q * Q) :=
  match l with
  | [] => [p]
  | p' :: rest =>
      if Qle_bool (snd p') (snd p)
      then p :: l
      else p' :: insert_desc p rest
  end.

Definition sort_desc (l : list (Q * Q)) : list (Q * Q) :=
  fold_right insert_desc [] l.

Fixpoint with_value (l : list (Q * option Q)) : list (Q * Q) :=
  match l with
  | [] => []
  | (k, Some a) :: rest => (k, a) :: with_value rest
  | (_, None) :: rest => with_value rest
  end.

Definition without_value (l : list (Q * option Q)) : list (Q * option Q) :=
  filter (fun p => isna (snd p)) l.

Definition sort_values_avg_votes_desc (l : list (Q * option Q))
    : list (Q * option Q) :=
  map (fun p => (fst p, Some (snd p))) (sort_desc (with_value l))
  ++ without_value l.

(** The final table [results] as a function of the table [df] the analysis
    starts from. *)
Definition results (df : DataFrame) : list (Q * option Q) :=
  sort_values_avg_votes_desc
    (avg_votes_by_score (analysis_df (golden_age_shows_rounded df))).

(** The data flow of the notebook after the rename: preprocessing, then
    analysis.  The cells also print intermediate tables; one of these lines,
    [sorted(df['type'].unique())] in stage 2.4, raises when a missing [type]
    stands next to a string, which [types_present] excludes. *)
Definition pipeline (df : DataFrame) : list (Q * option Q) :=
  results (preprocess df).

(** ** Small runs *)

Definition show_row (t : string) (y : Z) (s v : Q) : Row :=
  mkRow (Some "A. Actor"%string) (Some "Self"%string) (Some "ACTOR"%string)
        (Some t) (Some "SHOW"%string) y (Some "['drama']"%string)
        (Some s) (Some v).

Definition bucket9_table : DataFrame :=
  [ show_row "Alpha" 2005 (9 # 1) (100000 # 1);
    show_row "Beta" 2010 (88 # 10) (150000 # 1);
    show_row "Gamma" 2015 (92 # 10) (130000 # 1) ].

(** ** Stage 2.1: column names

    [df.rename(columns={...})] acts on the header of the table: a header
    that is a key of the mapping is replaced by its value, any other header
    is left as it is. *)
Definition column_names : list (string * string) :=
  [ ("   name", "name"); ("Character", "character"); ("r0le", "role");
    ("TITLE", "title"); ("  Type", "type"); ("release Year", "release_year");
    ("genres", "genres"); ("imdb sc0re", "imdb_score");
    ("imdb v0tes", "imdb_votes") ]%string.

Fixpoint lookup_column (columns : list (string * string)) (h : string)
    : option string :=
  match columns with
  | [] => None
  | (k, v) :: rest => if String.eqb h k then Some v else lookup_column rest h
  end.

Definition rename_column (columns : list (string * string)) (h : string)
    : string :=
  match lookup_column columns h with
  | Some v => v
  | None => h
  end.

Definition rename (columns : list (string * string)) (header : list string)
    : list string :=
  map (rename_column columns) header.

(** ** Printed summaries of stages 3.1 and 3.2 *)

(** [Series.min()] and [Series.max()] of an integer column; NaN on an empty
    column. *)
Definition series_min (l : list Z) : option Z :=
  match l with
  | [] => None
  | x :: xs => Some (fold_left Z.min xs x)
  end.

Definition series_max (l : list Z) : option Z :=
  match l with
  | [] => None
  | x :: xs => Some (fold_left Z.max xs x)
  end.

(** [golden_age_shows['imdb_score'].value_counts().sort_index()]: the number
    of rows per present score, scores ascending. *)
Definition score_distribution (gas : DataFrame) : list (Q * nat) :=
  map (fun k => (k, List.length (group_rows k gas))) (group_keys gas).

(** A show whose [type] is spelled with one of the variants. *)
Definition tv_row : Row :=
  set_type (show_row "Alpha" 2005 (81 # 10) (2500 # 1)) (Some "tv"%string).

(** ** Stage 3.5: the bar chart *)

Definition Qmax_bool (a b : Q) : Q := if Qle_bool a b then b else a.

(** [results['avg_votes'].max()]: missing values are skipped; NaN when no
    value is left. *)
Definition max_votes (res : list (Q * option Q)) : option Q :=
  match present (map snd res) with
  | [] => None
  | v :: vs => Some (fold_left Qmax_bool vs v)
  end.

(** [int(x)] on a float truncates toward zero and raises on NaN; a raised
    exception is [None]. *)
Definition int_of_float (x : option Q) : option Z :=
  match x with
  | Some q => Some (Z.quot (Qnum q) (Zpos (Qden q)))
  | None => None
  end.

(** [int((votes / max_votes) * 40)].  With [max_votes] zero the quotient is
    NaN or infinite, with [max_votes] NaN it is NaN, and [int] raises. *)
Definition bar_length (votes : Z) (max_votes : option Q) : option Z :=
  match max_votes with
  | Some m =>
      if Qeq_bool m 0 then None
      else int_of_float (Some (inject_Z votes / m * 40)%Q)
  | None => None
  end.

(** The loop over [results.iterrows()]: for every row, in order, the score,
    the length of the bar and the votes that are printed.  The loop stops at
    the first row on which a conversion raises. *)
Fixpoint chart_rows (m : option Q) (res : list (Q * option Q))
    : option (list (Z * Z * Z)) :=
  match res with
  | [] => Some []
  | (s, a) :: rest =>
      match int_of_float (Some s), int_of_float a with
      | Some score, Some votes =>
          match bar_length votes m with
          | Some len =>
              match chart_rows m rest with
              | Some rows => Some ((score, len, votes) :: rows)
              | None => None
              end
          | None => None
          end
      | _, _ => None
      end
  end.

Definition visualization (res : list (Q * option Q))
    : option (list (Z * Z * Z)) :=
  chart_rows (max_votes res) res.

(** A show nobody voted for. *)
Definition no_votes_table : DataFrame :=
  [ show_row "Alpha" 2005 (7 # 1) (0 # 1) ].

(** ** Tables on which the float arithmetic is exact

    The vote counts are non-negative integers, and their total plus the
    number of rows is below 2^46.  Every partial sum of a group is then an
    integer below 2^53, so the binary64 sum is the exact sum; the quotient
    by the group size, if not exact, stays strictly between the two halves
    of integers around it, so rounding it gives the integer that rounding
    the exact mean gives; and in the chart the error of the binary64
    quotient and product is below the distance of 40 * votes / max_votes
    from the next integer. *)
Definition whole_vote (c : option Q) : bool :=
  match c with
  | Some v => Qeq_bool v (inject_Z (Qfloor v)) && Qle_bool 0 v
  | None => true
  end.

Definition vote_total (df : DataFrame) : Q :=
  Qsum (present (map imdb_votes df)).

Definition votes_in_range (df : DataFrame) : bool :=
  forallb (fun r => whole_vote (imdb_votes r)) df
  && Qle_bool (vote_total df + inject_Z (Z.of_nat (List.length df)) + 1)
              (inject_Z (2 ^ 46)).

(** No row misses its [type]: every printing line of the notebook runs. *)
Definition types_present (df : DataFrame) : bool :=
  forallb (fun r => negb (isna (type r))) df.

(** ** The analysis as it is described

    The bucket of a rounded rating [k], written from the description of the
    analysis rather than from the cells: the rows released in 1999 or later,
    of type 'SHOW', whose rating rounds to [k].  The cells are compared with
    it below. *)
Definition in_bucket (k : Z) (r : Row) : bool :=
  (1999 <=? release_year r) && is_show r &&
  match imdb_score r with
  | Some s => round_half_even s =? k
  | None => false
  end.

Definition bucket (k : Z) (df : DataFrame) : DataFrame := filter (in_bucket k) df.

Definition bucket_votes (k : Z) (df : DataFrame) : list (option Q) :=
  map imdb_votes (bucket k df).

Definition bucket_titles (k : Z) (df : DataFrame) : list (option string) :=
  map title (bucket k df).

(** Descending order of [avg_votes], missing values last. *)
Definition avg_votes_ge (p p' : Q * option Q) : Prop :=
  match snd p, snd p' with
  | Some a, Some a' => (a' <= a)%Q
  | _, None => True
  | None, Some _ => False
  end.

(** The reliability threshold of the narrative. *)
Definition reliability_threshold : nat := 30.

(** A bucket of two titles inside the rating window (7) and a bucket of one
    title outside it (10). *)
Definition small_buckets_table : DataFrame :=
  [ show_row "Alpha" 2005 (7 # 1) (1000 # 1);
    show_row "Beta" 2010 (72 # 10) (3000 # 1);
    show_row "Gamma" 2012 (98 # 10) (900000 # 1) ].

(** * Properties *)

Example results_bucket9 :
  results bucket9_table = [((9 # 1)%Q, Some (126667 # 1)%Q)].
Proof. vm_compute. reflexivity. Qed.

Example round_examples :
  map round_half_even [(75 # 10); (85 # 10); (74 # 10); (-25 # 10); (-26 # 10); (3 # 1)]%Q
  = [8; 8; 7; -2; -3; 3].
Proof. reflexivity. Qed.

(** ** Cell and row comparison *)

Lemma str_cell_eqb_refl (a : option string) : str_cell_eqb a a = true.
Proof. destruct a; simpl; [apply String.eqb_refl | reflexivity]. Qed.

Lemma str_cell_eqb_eq (a b : option string) : str_cell_eqb a b = true <-> a = b.
Proof.
  destruct a, b; simpl; try (split; congruence).
  rewrite String.eqb_eq. split; congruence.
Qed.

Lemma str_cell_eqb_sym (a b : option string) : str_cell_eqb a b = str_cell_eqb b a.
Proof. destruct a, b; simpl; auto using String.eqb_sym. Qed.

Lemma Qeq_bool_sym (x y : Q) : Qeq_bool x y = Qeq_bool y x.
Proof.
  destruct (Qeq_bool x y) eqn:E, (Qeq_bool y x) eqn:F; auto.
  - apply Qeq_bool_iff in E. symmetry in E. apply Qeq_bool_iff in E. congruence.
  - apply Qeq_bool_iff in F. symmetry in F. apply Qeq_bool_iff in F. congruence.
Qed.

Lemma num_cell_eqb_sym (a b : option Q) : num_cell_eqb a b = num_cell_eqb b a.
Proof. destruct a, b; simpl; auto using Qeq_bool_sym. Qed.

Lemma num_cell_eqb_refl (a : option Q) : num_cell_eqb a a = true.
Proof. destruct a; simpl; [apply Qeq_bool_refl | reflexivity]. Qed.

Lemma row_eqb_sym (a b : Row) : row_eqb a b = row_eqb b a.
Proof.
  unfold row_eqb.
  rewrite (str_cell_eqb_sym (name a)), (str_cell_eqb_sym (character a)),
    (str_cell_eqb_sym (role a)), (str_cell_eqb_sym (title a)),
    (str_cell_eqb_sym (type a)), (str_cell_eqb_sym (genres a)),
    (num_cell_eqb_sym (imdb_score a)), (num_cell_eqb_sym (imdb_votes a)),
    (Z.eqb_sym (release_year a)).
  reflexivity.
Qed.

Lemma row_eqb_refl (a : Row) : row_eqb a a = true.
Proof.
  unfold row_eqb.
  rewrite !str_cell_eqb_refl, !num_cell_eqb_refl, Z.eqb_refl. reflexivity.
Qed.

(** ** Missing values *)

Lemma dropna_In (subset : list (Row -> bool)) (df : DataFrame) (r : Row) :
  In r (dropna subset df) <->
  In r df /\ forall col, In col subset -> col r = false.
Proof.
  unfold dropna. rewrite filter_In, negb_true_iff.
  split; intros [H1 H2]; split; auto.
  - intros col Hc. destruct (col r) eqn:E; auto.
    assert (existsb (fun c => c r) subset = true)
      by (apply existsb_exists; exists col; auto).
    congruence.
  - destruct (existsb (fun c => c r) subset) eqn:E; auto.
    apply existsb_exists in E. destruct E as (col & Hc & Hr).
    rewrite (H2 col Hc) in Hr. discriminate.
Qed.

Lemma select_mask_In (df : DataFrame) (mask : list bool) (r : Row) :
  In r (select_mask df mask) -> In r df.
Proof.
  revert mask. induction df as [|x df IH]; intros [|b mask]; simpl;
    try contradiction.
  destruct b; simpl; intros H.
  - destruct H; eauto.
  - eauto.
Qed.

Lemma drop_duplicates_In (df : DataFrame) (r : Row) :
  In r (drop_duplicates df) -> In r df.
Proof. apply select_mask_In. Qed.

Lemma isna_sum_zero (col : Row -> bool) (df : DataFrame) :
  Forall (fun r => col r = false) df -> isna_sum col df = 0%nat.
Proof.
  unfold isna_sum. induction 1 as [|r df Hr _ IH]; simpl; auto.
  rewrite Hr. exact IH.
Qed.

Lemma preprocess_present (df : DataFrame) :
  Forall (fun r => isna_imdb_score r = false /\ isna_imdb_votes r = false)
         (preprocess df).
Proof.
  apply Forall_forall. intros r Hr.
  unfold preprocess, replace_wrong_shows in Hr.
  apply in_map_iff in Hr. destruct Hr as (r0 & <- & Hr0).
  apply drop_duplicates_In, dropna_In in Hr0. destruct Hr0 as [_ Hcols].
  split.
  - apply (Hcols isna_imdb_score). simpl; auto.
  - apply (Hcols isna_imdb_votes). simpl; auto.
Qed.

(** C2. After the cleaning stage (rows missing [imdb_score] or [imdb_votes]
    dropped, duplicates removed, [type] canonicalized) every row of the table
    has a present rating and a present vote count, and the null counts the
    notebook prints for the two columns are zero. *)
Theorem cleaned_rating_and_votes_present (df : DataFrame) :
  Forall (fun r => imdb_score r <> None /\ imdb_votes r <> None) (preprocess df)
  /\ isna_sum isna_imdb_score (preprocess df) = 0%nat
  /\ isna_sum isna_imdb_votes (preprocess df) = 0%nat.
Proof.
  pose proof (preprocess_present df) as H.
  split; [|split].
  - eapply Forall_impl; [|exact H].
    intros r [Hs Hv]. unfold isna_imdb_score, isna_imdb_votes in *.
    destruct (imdb_score r), (imdb_votes r); simpl in *; split; congruence.
  - apply isna_sum_zero. eapply Forall_impl; [|exact H]. intros r [Hs _]; exact Hs.
  - apply isna_sum_zero. eapply Forall_impl; [|exact H]. intros r [_ Hv]; exact Hv.
Qed.

(** ** Duplicates *)

Lemma Qeq_bool_trans (x y z : Q) :
  Qeq_bool x y = true -> Qeq_bool y z = true -> Qeq_bool x z = true.
Proof.
  rewrite !Qeq_bool_iff. intros H1 H2. rewrite H1. exact H2.
Qed.

Lemma num_cell_eqb_trans (a b c : option Q) :
  num_cell_eqb a b = true -> num_cell_eqb b c = true -> num_cell_eqb a c = true.
Proof.
  destruct a, b, c; simpl; try congruence. apply Qeq_bool_trans.
Qed.

Lemma row_eqb_true (a b : Row) :
  row_eqb a b = true <->
  name a = name b /\ character a = character b /\ role a = role b /\
  title a = title b /\ type a = type b /\ release_year a = release_year b /\
  genres a = genres b /\
  num_cell_eqb (imdb_score a) (imdb_score b) = true /\
  num_cell_eqb (imdb_votes a) (imdb_votes b) = true.
Proof.
  unfold row_eqb. rewrite !andb_true_iff, !str_cell_eqb_eq, Z.eqb_eq. tauto.
Qed.

Lemma row_eqb_trans (a b c : Row) :
  row_eqb a b = true -> row_eqb b c = true -> row_eqb a c = true.
Proof.
  rewrite !row_eqb_true.
  intros (n1 & c1 & r1 & t1 & ty1 & y1 & g1 & s1 & v1)
         (n2 & c2 & r2 & t2 & ty2 & y2 & g2 & s2 & v2).
  repeat split; try congruence.
  - eapply num_cell_eqb_trans; eauto.
  - eapply num_cell_eqb_trans; eauto.
Qed.

Lemma drop_duplicates_from_cons (seen : list Row) (r : Row) (rest : DataFrame) :
  drop_duplicates_from seen (r :: rest) =
  if existsb (row_eqb r) seen
  then drop_duplicates_from (r :: seen) rest
  else r :: drop_duplicates_from (r :: seen) rest.
Proof.
  unfold drop_duplicates_from. simpl.
  destruct (existsb (row_eqb r) seen); reflexivity.
Qed.

Lemma drop_duplicates_from_unseen (df : DataFrame) :
  forall seen x, In x (drop_duplicates_from seen df) ->
                 existsb (row_eqb x) seen = false.
Proof.
  induction df as [|r rest IH]; intros seen x Hx.
  - contradiction.
  - rewrite drop_duplicates_from_cons in Hx.
    destruct (existsb (row_eqb r) seen) eqn:E.
    + apply IH in Hx. simpl in Hx. apply orb_false_iff in Hx. tauto.
    + destruct Hx as [<- | Hx]; [exact E|].
      apply IH in Hx. simpl in Hx. apply orb_false_iff in Hx. tauto.
Qed.

Lemma drop_duplicates_from_NoDupA (df : DataFrame) :
  forall seen, NoDupA same_row (drop_duplicates_from seen df).
Proof.
  induction df as [|r rest IH]; intros seen.
  - constructor.
  - rewrite drop_duplicates_from_cons.
    destruct (existsb (row_eqb r) seen); [apply IH|].
    constructor; [|apply IH].
    intros Hin. apply InA_alt in Hin. destruct Hin as (y & Hry & Hy).
    apply drop_duplicates_from_unseen in Hy. simpl in Hy.
    apply orb_false_iff in Hy. destruct Hy as [Hy _].
    unfold same_row in Hry. rewrite row_eqb_sym in Hry. congruence.
Qed.

Lemma duplicated_from_clean (l : DataFrame) :
  forall seen, NoDupA same_row l ->
    (forall x, In x l -> existsb (row_eqb x) seen = false) ->
    duplicated_from seen l = repeat false (List.length l).
Proof.
  induction l as [|x l IH]; intros seen Hnd Hseen; simpl; auto.
  inversion Hnd as [|? ? Hx Hl]; subst.
  rewrite (Hseen x) by (left; reflexivity). f_equal.
  apply IH; auto.
  intros y Hy. simpl. rewrite (Hseen y) by (right; exact Hy).
  rewrite orb_false_r.
  destruct (row_eqb y x) eqn:E; auto.
  exfalso. apply Hx. apply InA_alt. exists y. split; auto.
  unfold same_row. rewrite row_eqb_sym. exact E.
Qed.

Lemma select_mask_all (l : DataFrame) :
  select_mask l (map negb (repeat false (List.length l))) = l.
Proof. induction l; simpl; congruence. Qed.

Lemma count_true_repeat_false (n : nat) :
  List.length (filter (fun b : bool => b) (repeat false n)) = 0%nat.
Proof. induction n; simpl; auto. Qed.

(** Every row of the table is still represented after the removal. *)
Lemma drop_duplicates_from_complete (df : DataFrame) :
  forall seen r, In r df ->
    InA same_row r (drop_duplicates_from seen df) \/
    existsb (row_eqb r) seen = true.
Proof.
  induction df as [|x rest IH]; intros seen r Hr; [contradiction|].
  rewrite drop_duplicates_from_cons.
  destruct Hr as [-> | Hr].
  - destruct (existsb (row_eqb r) seen) eqn:E; auto.
    left. constructor. apply row_eqb_refl.
  - destruct (IH (x :: seen) r Hr) as [H | H].
    + destruct (existsb (row_eqb x) seen); auto.
    + simpl in H. apply orb_true_iff in H. destruct H as [H | H]; auto.
      destruct (existsb (row_eqb x) seen) eqn:E.
      * right. apply existsb_exists in E. destruct E as (s & Hs & Hxs).
        apply existsb_exists. exists s. split; auto.
        eapply row_eqb_trans; eauto.
      * left. constructor. exact H.
Qed.

(** C6. After [drop_duplicates] no two rows of the table are identical
    across all columns (the notebook's own recount of duplicates is zero),
    every row of the input is still represented by an identical row, and
    running the removal a second time returns the same table. *)
Theorem drop_duplicates_no_duplicates_idempotent (df : DataFrame) :
  NoDupA same_row (drop_duplicates df)
  /\ duplicate_count (drop_duplicates df) = 0%nat
  /\ Forall (fun r => InA same_row r (drop_duplicates df)) df
  /\ drop_duplicates (drop_duplicates df) = drop_duplicates df.
Proof.
  assert (Hnd : NoDupA same_row (drop_duplicates df))
    by apply drop_duplicates_from_NoDupA.
  assert (Hdup : duplicated (drop_duplicates df) =
                 repeat false (List.length (drop_duplicates df))).
  { apply duplicated_from_clean; auto. }
  repeat split.
  - exact Hnd.
  - unfold duplicate_count. rewrite Hdup. apply count_true_repeat_false.
  - apply Forall_forall. intros r Hr.
    destruct (drop_duplicates_from_complete df [] r Hr) as [H | H];
      [exact H | discriminate].
  - change (drop_duplicates (drop_duplicates df))
      with (select_mask (drop_duplicates df)
              (map negb (duplicated (drop_duplicates df)))).
    rewrite Hdup. apply select_mask_all.
Qed.

(** ** Canonical category labels *)

Lemma replace_idempotent (l : list string) (v : string) (c : option string) :
  replace l v (replace l v c) = replace l v c.
Proof.
  destruct c as [s|]; simpl; auto.
  destruct (existsb (String.eqb s) l) eqn:E; simpl.
  - destruct (existsb (String.eqb v) l); reflexivity.
  - rewrite E. reflexivity.
Qed.

Lemma replace_listed (l : list string) (v s : string) :
  In s l -> replace l v (Some s) = Some v.
Proof.
  intros H. simpl.
  assert (E : existsb (String.eqb s) l = true).
  { apply existsb_exists. exists s. split; auto. apply String.eqb_refl. }
  rewrite E. reflexivity.
Qed.

Lemma replace_unlisted (l : list string) (v s : string) :
  ~ In s l -> replace l v (Some s) = Some s.
Proof.
  intros H. simpl.
  destruct (existsb (String.eqb s) l) eqn:E; auto.
  apply existsb_exists in E. destruct E as (x & Hx & Hs).
  apply String.eqb_eq in Hs. subst x. contradiction.
Qed.

Lemma replace_wrong_shows_idempotent (l : list string) (v : string)
    (df : DataFrame) :
  replace_wrong_shows l v (replace_wrong_shows l v df) = replace_wrong_shows l v df.
Proof.
  unfold replace_wrong_shows. rewrite map_map. apply map_ext.
  intros r. unfold set_type. simpl. rewrite replace_idempotent. reflexivity.
Qed.

(** C5. Canonicalization is idempotent on tables; every value of the known
    variant list maps to the one label 'SHOW'; every other value, and a
    missing value, passes through unchanged; and in the table the [type] of
    each row is the replaced [type] of the row it comes from. *)
Theorem canonicalization_idempotent_total :
  (forall df,
     replace_wrong_shows wrong_shows_list correct_show
       (replace_wrong_shows wrong_shows_list correct_show df)
     = replace_wrong_shows wrong_shows_list correct_show df)
  /\ (forall s, In s wrong_shows_list ->
        replace wrong_shows_list correct_show (Some s) = Some "SHOW"%string)
  /\ (forall s, ~ In s wrong_shows_list ->
        replace wrong_shows_list correct_show (Some s) = Some s)
  /\ replace wrong_shows_list correct_show None = None
  /\ (forall df,
        map type (replace_wrong_shows wrong_shows_list correct_show df)
        = map (fun r => replace wrong_shows_list correct_show (type r)) df).
Proof.
  split; [|split; [|split; [|split]]].
  - intros df. apply replace_wrong_shows_idempotent.
  - intros s Hs. apply replace_listed. exact Hs.
  - intros s Hs. apply replace_unlisted. exact Hs.
  - reflexivity.
  - intros df. unfold replace_wrong_shows. rewrite map_map. reflexivity.
Qed.

Lemma canonicalization_idempotent_total_witness :
  replace wrong_shows_list correct_show (Some "tv series"%string)
    = Some "SHOW"%string
  /\ replace wrong_shows_list correct_show (Some "MOVIE"%string)
    = Some "MOVIE"%string.
Proof.
  destruct canonicalization_idempotent_total as (_ & Hin & Hout & _).
  split.
  - apply (Hin "tv series"%string). simpl. tauto.
  - apply (Hout "MOVIE"%string). simpl.
    intros H; repeat (destruct H as [H | H]; [discriminate H|]); exact H.
Defined.

(** C10. [replace_wrong_shows] keeps the number and the order of the rows,
    and in every row the columns name, character, role, title, release_year,
    genres, imdb_score and imdb_votes keep their values: only [type] can
    change. *)
Theorem replace_wrong_shows_frame (l : list string) (v : string) (df : DataFrame) :
  List.length (replace_wrong_shows l v df) = List.length df
  /\ Forall2
       (fun r r' =>
          name r' = name r /\ character r' = character r /\ role r' = role r /\
          title r' = title r /\ release_year r' = release_year r /\
          genres r' = genres r /\ imdb_score r' = imdb_score r /\
          imdb_votes r' = imdb_votes r /\
          r' = set_type r (type r'))
       df (replace_wrong_shows l v df).
Proof.
  split.
  - unfold replace_wrong_shows. apply length_map.
  - induction df as [|r df IH]; simpl; constructor; auto.
    simpl. repeat split; reflexivity.
Qed.

(** ** The Golden Age filter *)

(** C8. The filtered table is the cleaned table restricted, in order and
    with multiplicity, to the rows with [release_year >= 1999] and
    [type == 'SHOW']: a row is in it exactly when it is in the table and
    satisfies both conditions. *)
Theorem golden_age_shows_exact (df : DataFrame) :
  golden_age_shows df
    = filter (fun r => (1999 <=? release_year r) && is_show r) df
  /\ (forall r, In r (golden_age_shows df) <->
        In r df /\ 1999 <= release_year r /\ type r = Some "SHOW"%string).
Proof.
  split.
  - unfold golden_age_shows. induction df as [|r df IH]; simpl; auto.
    destruct (1999 <=? release_year r); simpl.
    + destruct (is_show r); simpl; congruence.
    + exact IH.
  - intros r. unfold golden_age_shows, is_show.
    rewrite !filter_In, Z.leb_le, str_cell_eqb_eq. tauto.
Qed.

(** ** Empty input *)

(** C9. On the empty table every stage of the analysis, the final
    [results] and the whole pipeline return the empty table; the functions
    are total, so no stage fails. *)
Theorem empty_input_empty_output :
  results [] = [] /\ pipeline [] = []
  /\ preprocess [] = [] /\ golden_age_shows_rounded [] = []
  /\ score_counts [] = [].
Proof. repeat split; reflexivity. Qed.

(** ** Rounding *)

Lemma round_half_even_frac (q : Q) :
  round_half_even q =
  match (q - inject_Z (Qfloor q) ?= 1 # 2)%Q with
  | Lt => Qfloor q
  | Gt => Qfloor q + 1
  | Eq => if Z.even (Qfloor q) then Qfloor q else Qfloor q + 1
  end.
Proof.
  destruct q as [n d]. unfold round_half_even, Qcompare, Qfloor. simpl.
  replace ((n * 1 + - (n / Z.pos d) * Z.pos d) * 2) with (2 * (n mod Z.pos d))
    by (rewrite Z.mod_eq by lia; ring).
  replace (Z.pos (d * 1)) with (Z.pos d) by (rewrite Pos.mul_1_r; reflexivity).
  reflexivity.
Qed.

Lemma round_half_even_Qeq (p q : Q) :
  (p == q)%Q -> round_half_even p = round_half_even q.
Proof.
  intros H. rewrite !round_half_even_frac.
  rewrite (Qfloor_comp _ _ H).
  assert (E : (p - inject_Z (Qfloor q) ?= 1 # 2)%Q = (q - inject_Z (Qfloor q) ?= 1 # 2)%Q).
  { apply Qcompare_comp; [rewrite H|]; reflexivity. }
  rewrite E. reflexivity.
Qed.

Lemma round_half_even_tie (n : Z) :
  round_half_even (inject_Z n + (1 # 2)) = if Z.even n then n else n + 1.
Proof.
  change (inject_Z n + (1 # 2))%Q with ((n * 2 + 1 * 1) # 2)%Q.
  unfold round_half_even. cbn [Qnum Qden].
  assert (Hd : (n * 2 + 1 * 1) / 2 = n) by (symmetry; apply (Z.div_unique _ 2 n 1); lia).
  assert (Hm : (n * 2 + 1 * 1) mod 2 = 1) by (symmetry; apply (Z.mod_unique _ 2 n 1); lia).
  rewrite Hd, Hm. reflexivity.
Qed.

Lemma round_half_even_nearest (q : Q) :
  (Qabs (q - inject_Z (round_half_even q)) <= 1 # 2)%Q.
Proof.
  pose proof (Qfloor_le q) as Hlo.
  pose proof (Qlt_floor q) as Hhi.
  rewrite inject_Z_plus in Hhi. change (inject_Z 1) with 1%Q in Hhi.
  rewrite round_half_even_frac.
  apply Qabs_Qle_condition.
  destruct (q - inject_Z (Qfloor q) ?= 1 # 2)%Q eqn:E.
  - apply Qeq_alt in E.
    destruct (Z.even (Qfloor q));
      [|rewrite inject_Z_plus; change (inject_Z 1) with 1%Q]; split; lra.
  - apply Qlt_alt in E. split; lra.
  - apply Qgt_alt in E. rewrite inject_Z_plus. change (inject_Z 1) with 1%Q.
    split; lra.
Qed.

Lemma round_half_even_integer (n : Z) : round_half_even (inject_Z n) = n.
Proof.
  unfold round_half_even, inject_Z. simpl.
  rewrite Z.div_1_r, Z.mod_1_r. reflexivity.
Qed.

(** C4. The rounding used for the bucket assignment is one rule: the
    nearest integer, and for a rating exactly half way between two
    integers the even one of them (the default rounding of IEEE 754,
    roundTiesToEven), whatever fraction denotes the rating.  So 7.5 and 8.5
    both go to bucket 8, and the rounded column of the table is this
    function applied to each present score. *)
Theorem round_ties_to_even :
  (forall q n, (q == inject_Z n + (1 # 2))%Q ->
     round_half_even q = if Z.even n then n else n + 1)
  /\ (forall q, (Qabs (q - series_round q) <= 1 # 2)%Q)
  /\ series_round (75 # 10) = (8 # 1)%Q
  /\ series_round (85 # 10) = (8 # 1)%Q
  /\ (forall gas,
        map imdb_score (round_scores gas)
        = map (fun r => option_map series_round (imdb_score r)) gas).
Proof.
  split; [|split; [|split; [|split]]].
  - intros q n H. rewrite (round_half_even_Qeq _ _ H).
    apply round_half_even_tie.
  - intros q. apply round_half_even_nearest.
  - reflexivity.
  - reflexivity.
  - intros gas. unfold round_scores. rewrite map_map. reflexivity.
Qed.

Lemma round_ties_to_even_witness :
  (75 # 10 == inject_Z 7 + (1 # 2))%Q /\ round_half_even (75 # 10) = 8.
Proof.
  split.
  - reflexivity.
  - apply (proj1 round_ties_to_even (75 # 10)%Q 7). reflexivity.
Defined.

(** ** Group keys *)

Lemma insert_key_In (k x : Q) (ks : list Q) :
  In x (insert_key k ks) -> x = k \/ In x ks.
Proof.
  induction ks as [|k' ks IH]; simpl.
  - intros [H | []]; auto.
  - destruct (k ?= k')%Q; simpl; intros H.
    + auto.
    + destruct H; auto.
    + destruct H as [H | H]; auto. destruct (IH H); auto.
Qed.

Lemma insert_key_keeps (k x : Q) (ks : list Q) :
  In x ks -> In x (insert_key k ks).
Proof.
  induction ks as [|k' ks IH]; simpl; [tauto|].
  destruct (k ?= k')%Q; simpl; intros [H | H]; auto.
Qed.

Lemma insert_key_has (k : Q) (ks : list Q) :
  exists x, In x (insert_key k ks) /\ (x == k)%Q.
Proof.
  induction ks as [|k' ks IH]; simpl.
  - exists k. split; [left|]; reflexivity.
  - destruct (k ?= k')%Q eqn:E.
    + apply Qeq_alt in E. exists k'. split; [left; reflexivity|].
      symmetry. exact E.
    + exists k. split; [left|]; reflexivity.
    + destruct IH as (x & Hx & Hk). exists x. split; [right|]; assumption.
Qed.

Lemma insert_key_lower (x k : Q) (ks : list Q) :
  (x < k)%Q -> Forall (Qlt x) ks -> Forall (Qlt x) (insert_key k ks).
Proof.
  intros Hxk H. induction H as [|k' ks Hk' Hks IH]; simpl.
  - constructor; auto.
  - destruct (k ?= k')%Q; repeat constructor; auto.
Qed.

Lemma insert_key_sorted (k : Q) (ks : list Q) :
  StronglySorted Qlt ks -> StronglySorted Qlt (insert_key k ks).
Proof.
  induction 1 as [|k' ks Hs IH Hall]; simpl.
  - repeat constructor.
  - destruct (k ?= k')%Q eqn:E.
    + constructor; auto.
    + apply Qlt_alt in E. constructor.
      * constructor; auto.
      * constructor; auto.
        eapply Forall_impl; [|exact Hall].
        intros y Hy. eapply Qlt_trans; eauto.
    + apply Qgt_alt in E. constructor; auto.
      apply insert_key_lower; auto.
Qed.

Lemma group_keys_sorted (df : DataFrame) : StronglySorted Qlt (group_keys df).
Proof.
  induction df as [|r df IH]; simpl; [constructor|].
  destruct (imdb_score r); auto using insert_key_sorted.
Qed.

Lemma group_keys_In (df : DataFrame) (k : Q) :
  In k (group_keys df) -> exists r, In r df /\ imdb_score r = Some k.
Proof.
  induction df as [|r df IH]; simpl; [contradiction|].
  destruct (imdb_score r) as [s|] eqn:E.
  - intros H. apply insert_key_In in H. destruct H as [-> | H].
    + exists r. auto.
    + destruct (IH H) as (r' & Hr' & Hs). exists r'. auto.
  - intros H. destruct (IH H) as (r' & Hr' & Hs). exists r'. auto.
Qed.

Lemma group_keys_covers (df : DataFrame) (r : Row) (s : Q) :
  In r df -> imdb_score r = Some s ->
  exists k, In k (group_keys df) /\ (k == s)%Q.
Proof.
  induction df as [|r' df IH]; simpl; [contradiction|].
  intros [-> | Hr] Hs.
  - rewrite Hs. apply insert_key_has.
  - destruct (IH Hr Hs) as (k & Hk & Hks). exists k. split; auto.
    destruct (imdb_score r'); auto using insert_key_keeps.
Qed.

Lemma StronglySorted_Qlt_NoDup (ks : list Q) :
  StronglySorted Qlt ks -> NoDup ks.
Proof.
  induction 1 as [|k ks Hs IH Hall]; constructor; auto.
  intros Hin. rewrite Forall_forall in Hall.
  apply (Qlt_irrefl k). apply Hall. exact Hin.
Qed.

(** ** Sorting by average votes *)

Lemma insert_desc_perm (p : Q * Q) (l : list (Q * Q)) :
  Permutation (insert_desc p l) (p :: l).
Proof.
  induction l as [|p' l IH]; simpl; auto.
  destruct (Qle_bool (snd p') (snd p)); auto.
  rewrite IH. apply perm_swap.
Qed.

Lemma sort_desc_perm (l : list (Q * Q)) : Permutation (sort_desc l) l.
Proof.
  induction l as [|p l IH]; simpl; auto.
  rewrite insert_desc_perm. auto.
Qed.

Lemma insert_desc_sorted (p : Q * Q) (l : list (Q * Q)) :
  StronglySorted (fun x y => snd y <= snd x)%Q l ->
  StronglySorted (fun x y => snd y <= snd x)%Q (insert_desc p l).
Proof.
  induction 1 as [|p' l Hs IH Hall]; simpl.
  - repeat constructor.
  - destruct (Qle_bool (snd p') (snd p)) eqn:E.
    + apply Qle_bool_iff in E. constructor.
      * constructor; auto.
      * constructor; auto.
        eapply Forall_impl; [|exact Hall].
        intros y Hy. simpl in *. eapply Qle_trans; eauto.
    + constructor; auto.
      assert (Hlt : (snd p < snd p')%Q).
      { apply Qnot_le_lt. intros H. apply Qle_bool_iff in H. congruence. }
      apply Forall_forall. intros y Hy.
      apply (Permutation_in _ (insert_desc_perm p l)) in Hy.
      destruct Hy as [<- | Hy].
      * apply Qlt_le_weak. exact Hlt.
      * rewrite Forall_forall in Hall. auto.
Qed.

Lemma sort_desc_sorted (l : list (Q * Q)) :
  StronglySorted (fun x y => snd y <= snd x)%Q (sort_desc l).
Proof.
  induction l as [|p l IH]; simpl; [constructor|].
  apply insert_desc_sorted. exact IH.
Qed.

Lemma with_without_value_perm (l : list (Q * option Q)) :
  Permutation
    (map (fun p => (fst p, Some (snd p))) (with_value l) ++ without_value l) l.
Proof.
  induction l as [|[k [a|]] l IH]; simpl; auto.
  symmetry. apply Permutation_cons_app. symmetry. exact IH.
Qed.

Lemma sort_values_perm (l : list (Q * option Q)) :
  Permutation (sort_values_avg_votes_desc l) l.
Proof.
  unfold sort_values_avg_votes_desc.
  rewrite (Permutation_map _ (sort_desc_perm (with_value l))).
  apply with_without_value_perm.
Qed.

Lemma StronglySorted_app {A : Type} (R : A -> A -> Prop) (l1 l2 : list A) :
  StronglySorted R l1 -> StronglySorted R l2 ->
  (forall x y, In x l1 -> In y l2 -> R x y) ->
  StronglySorted R (l1 ++ l2).
Proof.
  induction 1 as [|x l1 Hs IH Hall]; simpl; intros H2 Hx; auto.
  constructor.
  - apply IH; auto; intros; apply Hx; simpl; auto.
  - apply Forall_app. split; auto.
    apply Forall_forall. intros y Hy. apply Hx; simpl; auto.
Qed.

Lemma StronglySorted_map {A B : Type} (R : A -> A -> Prop) (R' : B -> B -> Prop)
    (f : A -> B) (l : list A) :
  (forall x y, R x y -> R' (f x) (f y)) ->
  StronglySorted R l -> StronglySorted R' (map f l).
Proof.
  intros Hf. induction 1 as [|x l Hs IH Hall]; simpl; constructor; auto.
  apply Forall_map. eapply Forall_impl; [|exact Hall]. auto.
Qed.

Lemma sort_values_sorted (l : list (Q * option Q)) :
  StronglySorted avg_votes_ge (sort_values_avg_votes_desc l).
Proof.
  unfold sort_values_avg_votes_desc. apply StronglySorted_app.
  - apply StronglySorted_map with (R := (fun x y => snd y <= snd x)%Q).
    + intros x y H. exact H.
    + apply sort_desc_sorted.
  - unfold without_value.
    induction l as [|[k [a|]] l IH]; simpl; [constructor | exact IH |].
    constructor; auto.
    apply Forall_forall. intros y Hy. apply filter_In in Hy.
    destruct Hy as [_ Hy]. unfold avg_votes_ge. simpl.
    destruct (snd y); [discriminate | exact I].
  - intros x y _ Hy. apply filter_In in Hy. destruct Hy as [_ Hy].
    unfold avg_votes_ge. destruct (snd y); [discriminate|].
    destruct (snd x); exact I.
Qed.

(** ** The cells against the described buckets *)

Lemma Qeq_bool_inject_Z (a b : Z) : Qeq_bool (inject_Z a) (inject_Z b) = (a =? b).
Proof.
  destruct (a =? b) eqn:E.
  - apply Z.eqb_eq in E. subst. apply Qeq_bool_refl.
  - destruct (Qeq_bool (inject_Z a) (inject_Z b)) eqn:F; auto.
    apply Qeq_bool_iff in F. unfold Qeq in F. simpl in F.
    apply Z.eqb_neq in E. lia.
Qed.

Lemma Qle_bool_inject_Z (a b : Z) : Qle_bool (inject_Z a) (inject_Z b) = (a <=? b).
Proof. unfold Qle_bool. simpl. rewrite !Z.mul_1_r. reflexivity. Qed.

Lemma inject_Z_inj (a b : Z) : inject_Z a = inject_Z b -> a = b.
Proof. intros H. injection H. auto. Qed.

Lemma golden_age_shows_single_filter (df : DataFrame) :
  golden_age_shows df
  = filter (fun r => (1999 <=? release_year r) && is_show r) df.
Proof.
  unfold golden_age_shows. induction df as [|r df IH]; simpl; auto.
  destruct (1999 <=? release_year r); simpl.
  - destruct (is_show r); simpl; congruence.
  - exact IH.
Qed.

Lemma nonempty_In {A : Type} (l : list A) : l <> [] <-> exists x, In x l.
Proof.
  destruct l as [|x l]; split.
  - congruence.
  - intros [x []].
  - intros _. exists x. left. reflexivity.
  - discriminate.
Qed.

Lemma group_rows_rounded (k : Z) (df : DataFrame) :
  group_rows (inject_Z k) (golden_age_shows_rounded df)
  = round_scores (bucket k df).
Proof.
  unfold golden_age_shows_rounded, group_rows, bucket.
  rewrite golden_age_shows_single_filter.
  unfold round_scores.
  induction df as [|r df IH]; simpl; auto.
  assert (Hb : in_bucket k r =
               (1999 <=? release_year r) && is_show r &&
               has_score (inject_Z k)
                 (set_imdb_score r (option_map series_round (imdb_score r)))).
  { unfold in_bucket, has_score. simpl.
    destruct (imdb_score r); simpl; auto.
    unfold series_round. rewrite Qeq_bool_inject_Z. reflexivity. }
  rewrite Hb.
  destruct ((1999 <=? release_year r) && is_show r); simpl; auto.
  destruct (has_score (inject_Z k) _); simpl; rewrite IH; reflexivity.
Qed.

Lemma group_rows_analysis (q : Q) (gas : DataFrame) :
  (4 <= q)%Q -> (q <= 9)%Q ->
  group_rows q (analysis_df gas) = group_rows q gas.
Proof.
  intros Hlo Hhi. unfold group_rows, analysis_df.
  induction gas as [|r gas IH]; simpl; auto.
  destruct (in_range r) eqn:Er; simpl.
  - rewrite IH. reflexivity.
  - destruct (has_score q r) eqn:Eh; auto.
    exfalso. unfold in_range, has_score in *.
    destruct (imdb_score r) as [s|]; [|discriminate].
    apply Qeq_bool_iff in Eh.
    assert (H4 : Qle_bool 4 s = true) by (apply Qle_bool_iff; rewrite Eh; exact Hlo).
    assert (H9 : Qle_bool s 9 = true) by (apply Qle_bool_iff; rewrite Eh; exact Hhi).
    rewrite H4, H9 in Er. discriminate.
Qed.

Lemma round_scores_votes (l : DataFrame) :
  map imdb_votes (round_scores l) = map imdb_votes l.
Proof. unfold round_scores. rewrite map_map. reflexivity. Qed.

Lemma round_scores_titles (l : DataFrame) :
  map title (round_scores l) = map title l.
Proof. unfold round_scores. rewrite map_map. reflexivity. Qed.

Lemma in_window (k : Z) : 4 <= k <= 9 -> (4 <= inject_Z k)%Q /\ (inject_Z k <= 9)%Q.
Proof.
  intros [H4 H9]. split.
  - change 4%Q with (inject_Z 4). rewrite <- Zle_Qle. exact H4.
  - change 9%Q with (inject_Z 9). rewrite <- Zle_Qle. exact H9.
Qed.

Lemma bucket_avg_rounded (k : Z) (df : DataFrame) :
  4 <= k <= 9 ->
  bucket_avg (inject_Z k) (analysis_df (golden_age_shows_rounded df))
  = option_map series_round (mean (bucket_votes k df)).
Proof.
  intros Hk. destruct (in_window k Hk) as [H4 H9].
  unfold bucket_avg, bucket_votes.
  rewrite group_rows_analysis, group_rows_rounded, round_scores_votes by assumption.
  reflexivity.
Qed.

(** The rows of the rounded table carry integral scores. *)
Lemma rounded_row (df : DataFrame) (r : Row) (x : Q) :
  In r (golden_age_shows_rounded df) -> imdb_score r = Some x ->
  exists k, x = inject_Z k /\ bucket k df <> [].
Proof.
  unfold golden_age_shows_rounded, round_scores.
  rewrite golden_age_shows_single_filter.
  intros Hr Hx. apply in_map_iff in Hr. destruct Hr as (r0 & <- & Hr0).
  apply filter_In in Hr0. destruct Hr0 as [Hin Hp].
  simpl in Hx. destruct (imdb_score r0) as [s|] eqn:Es; [|discriminate].
  simpl in Hx. injection Hx as <-.
  exists (round_half_even s). split; [reflexivity|].
  apply nonempty_In. exists r0. unfold bucket. apply filter_In. split; auto.
  unfold in_bucket. rewrite Hp, Es, Z.eqb_refl. reflexivity.
Qed.

Lemma bucket_rounded_row (df : DataFrame) (k : Z) :
  bucket k df <> [] ->
  exists r, In r (golden_age_shows_rounded df) /\ imdb_score r = Some (inject_Z k).
Proof.
  intros H. apply nonempty_In in H. destruct H as (r0 & Hr0).
  unfold bucket in Hr0. apply filter_In in Hr0. destruct Hr0 as [Hin Hb].
  unfold in_bucket in Hb. apply andb_true_iff in Hb. destruct Hb as [Hp Hs].
  destruct (imdb_score r0) as [s|] eqn:Es; [|discriminate].
  apply Z.eqb_eq in Hs.
  exists (set_imdb_score r0 (option_map series_round (imdb_score r0))). split.
  - unfold golden_age_shows_rounded, round_scores.
    rewrite golden_age_shows_single_filter.
    apply (in_map (fun r => set_imdb_score r
                               (option_map series_round (imdb_score r)))).
    apply filter_In. auto.
  - simpl. rewrite Es. simpl. unfold series_round. rewrite Hs. reflexivity.
Qed.

Lemma group_keys_rounded (df : DataFrame) (x : Q) :
  In x (group_keys (golden_age_shows_rounded df)) <->
  exists k, x = inject_Z k /\ bucket k df <> [].
Proof.
  split.
  - intros H. apply group_keys_In in H. destruct H as (r & Hr & Hs).
    eapply rounded_row; eauto.
  - intros (k & -> & Hb).
    destruct (bucket_rounded_row df k Hb) as (r & Hr & Hs).
    destruct (group_keys_covers _ r _ Hr Hs) as (y & Hy & Hyk).
    pose proof Hy as Hy'. apply group_keys_In in Hy'.
    destruct Hy' as (r' & Hr' & Hs').
    destruct (rounded_row df r' y Hr' Hs') as (k' & -> & _).
    unfold Qeq in Hyk. simpl in Hyk.
    replace k with k' by lia. exact Hy.
Qed.

Lemma group_keys_analysis (df : DataFrame) (x : Q) :
  In x (group_keys (analysis_df (golden_age_shows_rounded df))) <->
  exists k, x = inject_Z k /\ 4 <= k <= 9 /\ bucket k df <> [].
Proof.
  split.
  - intros H. apply group_keys_In in H. destruct H as (r & Hr & Hs).
    unfold analysis_df in Hr. apply filter_In in Hr. destruct Hr as [Hr Hrange].
    destruct (rounded_row df r x Hr Hs) as (k & -> & Hb).
    exists k. repeat split; auto.
    + unfold in_range in Hrange. rewrite Hs in Hrange.
      apply andb_true_iff in Hrange. destruct Hrange as [H4 _].
      change 4%Q with (inject_Z 4) in H4. rewrite Qle_bool_inject_Z in H4.
      apply Z.leb_le. exact H4.
    + unfold in_range in Hrange. rewrite Hs in Hrange.
      apply andb_true_iff in Hrange. destruct Hrange as [_ H9].
      change 9%Q with (inject_Z 9) in H9. rewrite Qle_bool_inject_Z in H9.
      apply Z.leb_le. exact H9.
  - intros (k & -> & Hk & Hb).
    destruct (bucket_rounded_row df k Hb) as (r & Hr & Hs).
    assert (Hadf : In r (analysis_df (golden_age_shows_rounded df))).
    { unfold analysis_df. apply filter_In. split; auto.
      unfold in_range. rewrite Hs.
      change 4%Q with (inject_Z 4). change 9%Q with (inject_Z 9).
      rewrite !Qle_bool_inject_Z. apply andb_true_iff.
      split; apply Z.leb_le; lia. }
    destruct (group_keys_covers _ r _ Hadf Hs) as (y & Hy & Hyk).
    pose proof Hy as Hy'. apply group_keys_In in Hy'.
    destruct Hy' as (r' & Hr' & Hs').
    unfold analysis_df in Hr'. apply filter_In in Hr'. destruct Hr' as [Hr' _].
    destruct (rounded_row df r' y Hr' Hs') as (k' & -> & _).
    unfold Qeq in Hyk. simpl in Hyk.
    replace k with k' by lia. exact Hy.
Qed.

Lemma results_In (df : DataFrame) (x : Q) (a : option Q) :
  In (x, a) (results df) <->
  exists k, x = inject_Z k /\ 4 <= k <= 9 /\ bucket k df <> [] /\
            a = option_map series_round (mean (bucket_votes k df)).
Proof.
  unfold results. split.
  - intros H. apply (Permutation_in _ (sort_values_perm _)) in H.
    unfold avg_votes_by_score in H. apply in_map_iff in H.
    destruct H as (y & Hy & Hkeys). injection Hy as -> <-.
    apply group_keys_analysis in Hkeys. destruct Hkeys as (k & -> & Hk & Hb).
    exists k. repeat split; try tauto. apply bucket_avg_rounded. exact Hk.
  - intros (k & -> & Hk & Hb & ->).
    apply (Permutation_in _ (Permutation_sym (sort_values_perm _))).
    unfold avg_votes_by_score. apply in_map_iff. exists (inject_Z k). split.
    + rewrite bucket_avg_rounded by exact Hk. reflexivity.
    + apply group_keys_analysis. exists k. auto.
Qed.

Lemma results_keys_NoDup (df : DataFrame) : NoDup (map fst (results df)).
Proof.
  unfold results.
  apply (Permutation_NoDup
           (Permutation_sym (Permutation_map fst (sort_values_perm _)))).
  unfold avg_votes_by_score. rewrite map_map. simpl. rewrite map_id.
  apply StronglySorted_Qlt_NoDup, group_keys_sorted.
Qed.

Lemma present_nonempty (l : list (option Q)) : present l <> [] -> l <> [].
Proof. destruct l; simpl; congruence. Qed.

(** C1, as the cells compute it.  For every table, [results] holds one row
    per rounded rating [k] between 4 and 9 that has at least one row released
    in 1999 or later with type 'SHOW'; on a table whose vote counts are in
    the range of exact arithmetic the value in that row is the mean of the
    bucket's vote counts rounded to the nearest integer.  A bucket 9 with
    votes 100000, 150000 and 130000 is reported with 126667; no further
    rounding to thousands is applied. *)
Theorem results_match_buckets (df : DataFrame) :
  (votes_in_range df = true ->
   forall k a,
     In (inject_Z k, a) (results df) <->
     4 <= k <= 9 /\ bucket k df <> [] /\
     a = option_map series_round (mean (bucket_votes k df)))
  /\ (forall k, (exists a, In (inject_Z k, a) (results df)) <->
                4 <= k <= 9 /\ bucket k df <> [])
  /\ Forall (fun p => exists k, fst p = inject_Z k) (results df)
  /\ NoDup (map fst (results df))
  /\ (present (bucket_votes 9 df) = [100000 # 1; 150000 # 1; 130000 # 1]%Q ->
      In ((9 # 1)%Q, Some (126667 # 1)%Q) (results df)).
Proof.
  split; [|split; [|split; [|split]]].
  - intros _ k a. rewrite results_In. split.
    + intros (k' & Hk' & H). apply inject_Z_inj in Hk'. subst k'. exact H.
    + intros H. exists k. split; [reflexivity | exact H].
  - intros k. split.
    + intros (a & Ha). apply results_In in Ha.
      destruct Ha as (k' & Hk' & Hw & Hb & _). apply inject_Z_inj in Hk'.
      subst k'. split; assumption.
    + intros [Hw Hb]. eexists. apply results_In. exists k. eauto.
  - apply Forall_forall. intros [x a] H. apply results_In in H.
    destruct H as (k & -> & _). exists k. reflexivity.
  - apply results_keys_NoDup.
  - intros H. apply results_In. exists 9. split; [reflexivity|].
    split; [lia|]. split.
    + unfold bucket_votes in H. intros E. rewrite E in H. discriminate.
    + unfold mean. rewrite H. reflexivity.
Qed.

Lemma results_match_buckets_witness :
  votes_in_range bucket9_table = true
  /\ present (bucket_votes 9 bucket9_table)
     = [100000 # 1; 150000 # 1; 130000 # 1]%Q
  /\ (In (inject_Z 9, Some (126667 # 1)%Q) (results bucket9_table) <->
      4 <= 9 <= 9 /\ bucket 9 bucket9_table <> [] /\
      Some (126667 # 1)%Q
      = option_map series_round (mean (bucket_votes 9 bucket9_table)))
  /\ In ((9 # 1)%Q, Some (126667 # 1)%Q) (results bucket9_table).
Proof.
  split; [reflexivity|]. split; [reflexivity|]. split.
  - apply (proj1 (results_match_buckets bucket9_table)). reflexivity.
  - apply (proj2 (proj2 (proj2 (proj2 (results_match_buckets bucket9_table))))).
    reflexivity.
Defined.

(** The table of C1's example reports 126667 for bucket 9, not 127000. *)
Lemma bucket9_not_reported_as_127000 :
  present (bucket_votes 9 bucket9_table) = [100000 # 1; 150000 # 1; 130000 # 1]%Q
  /\ results bucket9_table = [((9 # 1)%Q, Some (126667 # 1)%Q)]
  /\ ~ In ((9 # 1)%Q, Some (127000 # 1)%Q) (results bucket9_table).
Proof.
  split; [reflexivity|]. split; [vm_compute; reflexivity|].
  replace (results bucket9_table) with [((9 # 1)%Q, Some (126667 # 1)%Q)]
    by (vm_compute; reflexivity).
  simpl. intros [H | []]. discriminate H.
Qed.

(** ** Distinct titles per score and the rating window *)

Lemma score_counts_In (df : DataFrame) (x : Q) (n : nat) :
  In (x, n) (score_counts (golden_age_shows_rounded df)) <->
  exists k, x = inject_Z k /\ bucket k df <> [] /\
            n = nunique (bucket_titles k df).
Proof.
  unfold score_counts. rewrite in_map_iff. split.
  - intros (y & Hy & Hkeys). injection Hy as -> <-.
    apply group_keys_rounded in Hkeys. destruct Hkeys as (k & -> & Hb).
    exists k. repeat split; auto.
    rewrite group_rows_rounded, round_scores_titles. reflexivity.
  - intros (k & -> & Hb & ->). exists (inject_Z k). split.
    + rewrite group_rows_rounded, round_scores_titles. reflexivity.
    + apply group_keys_rounded. exists k. auto.
Qed.

(** C3, as the cells compute it.  Every bucket of the filtered and rounded
    table is listed in [score_counts] with its number of distinct titles,
    however small; a bucket is left out of [results] exactly when its
    rounded rating is outside the fixed window 4 to 9, whatever that number
    is. *)
Theorem exclusion_by_rating_window (df : DataFrame) :
  (forall k, bucket k df <> [] ->
     In (inject_Z k, nunique (bucket_titles k df))
        (score_counts (golden_age_shows_rounded df)))
  /\ (forall x n, In (x, n) (score_counts (golden_age_shows_rounded df)) ->
        exists k, x = inject_Z k /\ bucket k df <> [] /\
                  n = nunique (bucket_titles k df))
  /\ (forall k, bucket k df <> [] ->
        ((exists a, In (inject_Z k, a) (results df)) <-> 4 <= k <= 9)).
Proof.
  split; [|split].
  - intros k Hb. apply score_counts_In. exists k. auto.
  - intros x n H. apply score_counts_In. exact H.
  - intros k Hb. split.
    + intros (a & Ha). apply results_In in Ha.
      destruct Ha as (k' & Hk' & Hw & _). apply inject_Z_inj in Hk'.
      subst k'. exact Hw.
    + intros Hw. eexists. apply results_In. exists k. eauto.
Qed.

Lemma exclusion_by_rating_window_witness :
  bucket 10 small_buckets_table <> []
  /\ In (inject_Z 10, nunique (bucket_titles 10 small_buckets_table))
        (score_counts (golden_age_shows_rounded small_buckets_table))
  /\ ~ (exists a, In (inject_Z 10, a) (results small_buckets_table)).
Proof.
  assert (Hb : bucket 10 small_buckets_table <> []) by (vm_compute; discriminate).
  destruct (exclusion_by_rating_window small_buckets_table) as (H1 & _ & H3).
  split; [exact Hb|]. split.
  - apply (H1 10 Hb).
  - intros H. apply (H3 10 Hb) in H. lia.
Defined.

(** A bucket of two distinct titles, far below the threshold of 30, is
    listed in [score_counts] and is still part of [results]. *)
Lemma small_bucket_still_reported :
  In ((7 # 1)%Q, 2%nat) (score_counts (golden_age_shows_rounded small_buckets_table))
  /\ (2 < reliability_threshold)%nat
  /\ In ((7 # 1)%Q, Some (2000 # 1)%Q) (results small_buckets_table).
Proof.
  split; [|split].
  - vm_compute. auto.
  - unfold reliability_threshold. lia.
  - vm_compute. auto.
Qed.

(** ** Order of the output *)

Lemma mean_present (l : list (option Q)) :
  l <> [] -> Forall (fun v => v <> None) l -> mean l <> None.
Proof.
  intros Hne Hall. destruct l as [|v l]; [congruence|].
  inversion Hall as [|? ? Hv _]; subst.
  unfold mean. destruct v as [v|]; [|congruence]. simpl. discriminate.
Qed.



Lemma pipeline_values_present (df : DataFrame) :
  Forall (fun p => snd p <> None) (pipeline df).
Proof.
  apply Forall_forall. intros [x a] Hp. unfold pipeline in Hp.
  apply results_In in Hp. destruct Hp as (k & _ & _ & Hb & ->). simpl.
  assert (Hm : mean (bucket_votes k (preprocess df)) <> None).
  { apply mean_present.
    - unfold bucket_votes. intros E. apply map_eq_nil in E. contradiction.
    - unfold bucket_votes. apply Forall_map. apply Forall_forall.
      intros r Hr. unfold bucket in Hr. apply filter_In in Hr.
      destruct Hr as [Hr _].
      pose proof (preprocess_present df) as Hall.
      rewrite Forall_forall in Hall. destruct (Hall r Hr) as [_ Hv].
      unfold isna_imdb_votes in Hv. destruct (imdb_votes r); [discriminate|].
      discriminate Hv. }
  destruct (mean (bucket_votes k (preprocess df))); simpl; congruence.
Qed.



(** * Further properties of the stages *)

(** ** Column names *)

Lemma lookup_column_In (columns : list (string * string)) (h v : string) :
  lookup_column columns h = Some v -> In (h, v) columns.
Proof.
  induction columns as [|[k w] rest IH]; simpl; [discriminate|].
  destruct (String.eqb h k) eqn:E.
  - apply String.eqb_eq in E. intros H. injection H as ->. subst. auto.
  - auto.
Qed.

Lemma lookup_column_None (columns : list (string * string)) (h : string) :
  ~ In h (map fst columns) -> lookup_column columns h = None.
Proof.
  induction columns as [|[k w] rest IH]; simpl; auto.
  intros H. destruct (String.eqb h k) eqn:E.
  - apply String.eqb_eq in E. subst. tauto.
  - apply IH. tauto.
Qed.

Lemma rename_column_stable (columns : list (string * string)) :
  Forall (fun kv => rename_column columns (snd kv) = snd kv) columns ->
  forall h, rename_column columns (rename_column columns h)
            = rename_column columns h.
Proof.
  intros Hall h.
  destruct (lookup_column columns h) as [v|] eqn:E.
  - assert (Hv : rename_column columns h = v)
      by (unfold rename_column; rewrite E; reflexivity).
    rewrite Hv. apply lookup_column_In in E. rewrite Forall_forall in Hall.
    apply (Hall (h, v) E).
  - assert (Hh : rename_column columns h = h)
      by (unfold rename_column; rewrite E; reflexivity).
    rewrite !Hh. reflexivity.
Qed.

(** X1. Renaming is idempotent on every header, leaves a header outside the
    mapping as it is, and sends no two of the nine mapped headers to one
    name. *)
Theorem rename_idempotent_injective :
  (forall header,
     rename column_names (rename column_names header)
     = rename column_names header)
  /\ (forall h, ~ In h (map fst column_names) ->
        rename_column column_names h = h)
  /\ (forall h1 h2,
        In h1 (map fst column_names) -> In h2 (map fst column_names) ->
        rename_column column_names h1 = rename_column column_names h2 ->
        h1 = h2).
Proof.
  split; [|split].
  - intros header. unfold rename. rewrite map_map. apply map_ext.
    apply rename_column_stable.
    repeat (constructor; [reflexivity|]). constructor.
  - intros h H. unfold rename_column.
    rewrite (lookup_column_None _ _ H). reflexivity.
  - intros h1 h2 H1 H2. simpl in H1, H2.
    repeat (destruct H1 as [<- | H1]; [|]); try contradiction;
      repeat (destruct H2 as [<- | H2]; [|]); try contradiction;
      intros E; first [reflexivity | discriminate E].
Qed.

Lemma rename_idempotent_injective_witness :
  rename_column column_names "budget"%string = "budget"%string.
Proof.
  apply (proj1 (proj2 rename_idempotent_injective) "budget"%string).
  simpl. intros H.
  repeat (destruct H as [H | H]; [discriminate H|]). exact H.
Defined.

(** ** Row counts of the cleaning stages *)

Lemma filter_complement_counts (p s v : Row -> bool) (df : DataFrame) :
  (forall r, p r = negb (s r || v r)) ->
  (List.length (filter p df) + List.length (filter s df) <= List.length df)%nat
  /\ (List.length (filter p df) + List.length (filter v df) <= List.length df)%nat
  /\ (List.length df
      <= List.length (filter p df) + List.length (filter s df)
         + List.length (filter v df))%nat
  /\ filter p (filter p df) = filter p df.
Proof.
  intros Hp. induction df as [|r df (IH1 & IH2 & IH3 & IH4)]; simpl.
  - repeat split; auto.
  - rewrite (Hp r).
    destruct (s r) eqn:Es, (v r) eqn:Ev; simpl; rewrite ?(Hp r), ?Es, ?Ev;
      simpl; rewrite ?IH4; repeat split; auto; lia.
Qed.

(** X2. [dropna] removes at least as many rows as either column misses and at
    most as many as the two columns miss together; a second [dropna]
    removes nothing. *)
Theorem dropna_row_counts (df : DataFrame) :
  let kept := dropna [isna_imdb_score; isna_imdb_votes] df in
  (List.length kept + isna_sum isna_imdb_score df <= List.length df)%nat
  /\ (List.length kept + isna_sum isna_imdb_votes df <= List.length df)%nat
  /\ (List.length df
      <= List.length kept + isna_sum isna_imdb_score df
         + isna_sum isna_imdb_votes df)%nat
  /\ dropna [isna_imdb_score; isna_imdb_votes] kept = kept.
Proof.
  cbv zeta. unfold dropna, isna_sum.
  apply filter_complement_counts.
  intros r. simpl. rewrite orb_false_r. reflexivity.
Qed.

Lemma duplicated_from_counts (l : DataFrame) :
  forall seen,
    (List.length (filter (fun b : bool => b) (duplicated_from seen l))
     + List.length (drop_duplicates_from seen l) = List.length l)%nat.
Proof.
  induction l as [|r l IH]; intros seen; [reflexivity|].
  rewrite drop_duplicates_from_cons. simpl.
  specialize (IH (r :: seen)).
  destruct (existsb (row_eqb r) seen); simpl; lia.
Qed.

(** X3. The duplicate count the notebook prints and the rows remaining after
    [drop_duplicates] add up to the rows before it. *)
Theorem duplicate_count_plus_remaining (df : DataFrame) :
  (duplicate_count df + List.length (drop_duplicates df) = List.length df)%nat.
Proof. apply duplicated_from_counts. Qed.

Lemma drop_duplicates_from_app (l : DataFrame) (r : Row) :
  forall seen,
    drop_duplicates_from seen (l ++ [r])
    = drop_duplicates_from seen l
      ++ (if existsb (row_eqb r) seen || existsb (row_eqb r) l then [] else [r]).
Proof.
  induction l as [|x l IH]; intros seen.
  - simpl app. rewrite drop_duplicates_from_cons. simpl.
    rewrite orb_false_r. destruct (existsb (row_eqb r) seen); reflexivity.
  - simpl app. rewrite !drop_duplicates_from_cons, IH. simpl existsb.
    replace (row_eqb r x || existsb (row_eqb r) seen || existsb (row_eqb r) l)
      with (existsb (row_eqb r) seen || (row_eqb r x || existsb (row_eqb r) l))
      by (destruct (row_eqb r x), (existsb (row_eqb r) seen),
            (existsb (row_eqb r) l); reflexivity).
    destruct (existsb (row_eqb x) seen); reflexivity.
Qed.

(** X4. Only first occurrences are kept: a row appended to a table is dropped
    when an identical row is already in the table and kept, at the end,
    otherwise; the first row of a table is always kept. *)
Theorem drop_duplicates_first_occurrence (df : DataFrame) (r : Row) :
  drop_duplicates (df ++ [r])
  = (if existsb (row_eqb r) df
     then drop_duplicates df
     else drop_duplicates df ++ [r])
  /\ hd_error (drop_duplicates (r :: df)) = Some r.
Proof.
  split.
  - unfold drop_duplicates. rewrite drop_duplicates_from_app. simpl.
    destruct (existsb (row_eqb r) df); [apply app_nil_r | reflexivity].
  - unfold drop_duplicates. rewrite drop_duplicates_from_cons. reflexivity.
Qed.

(** ** Order of the cleaning stages *)

Lemma existsb_filter_same (p : Row -> bool) (r : Row) (seen : list Row) :
  (forall a b, row_eqb a b = true -> p a = p b) ->
  p r = true ->
  existsb (row_eqb r) (filter p seen) = existsb (row_eqb r) seen.
Proof.
  intros Hp Hr. induction seen as [|s seen IH]; simpl; auto.
  destruct (p s) eqn:Es; simpl.
  - rewrite IH. reflexivity.
  - rewrite IH. destruct (row_eqb r s) eqn:E; auto.
    rewrite (Hp r s E) in Hr. congruence.
Qed.

Lemma drop_duplicates_from_filter (p : Row -> bool) (l : DataFrame) :
  (forall a b, row_eqb a b = true -> p a = p b) ->
  forall seen,
    drop_duplicates_from (filter p seen) (filter p l)
    = filter p (drop_duplicates_from seen l).
Proof.
  intros Hp. induction l as [|r l IH]; intros seen; [reflexivity|].
  rewrite drop_duplicates_from_cons. simpl filter at 2.
  destruct (p r) eqn:Er.
  - rewrite drop_duplicates_from_cons, existsb_filter_same by assumption.
    specialize (IH (r :: seen)). simpl in IH. rewrite Er in IH.
    destruct (existsb (row_eqb r) seen); simpl; rewrite ?Er, IH; reflexivity.
  - specialize (IH (r :: seen)). simpl in IH. rewrite Er in IH.
    destruct (existsb (row_eqb r) seen); simpl; rewrite ?Er, IH; reflexivity.
Qed.

Lemma isna_same_row (a b : Row) :
  row_eqb a b = true ->
  negb (existsb (fun col => col a) [isna_imdb_score; isna_imdb_votes])
  = negb (existsb (fun col => col b) [isna_imdb_score; isna_imdb_votes]).
Proof.
  intros H. apply row_eqb_true in H.
  destruct H as (_ & _ & _ & _ & _ & _ & _ & Hs & Hv).
  simpl. unfold isna_imdb_score, isna_imdb_votes.
  destruct (imdb_score a), (imdb_score b), (imdb_votes a), (imdb_votes b);
    simpl in *; congruence.
Qed.

(** X5. Stages 2.2 and 2.3 commute: dropping the incomplete rows before or
    after removing the duplicates gives the same table. *)
Theorem dropna_drop_duplicates_commute (df : DataFrame) :
  drop_duplicates (dropna [isna_imdb_score; isna_imdb_votes] df)
  = dropna [isna_imdb_score; isna_imdb_votes] (drop_duplicates df).
Proof.
  unfold drop_duplicates, dropna.
  apply (drop_duplicates_from_filter _ df isna_same_row []).
Qed.

Lemma dropna_keeps (df : DataFrame) :
  Forall (fun r => imdb_score r <> None /\ imdb_votes r <> None) df ->
  dropna [isna_imdb_score; isna_imdb_votes] df = df.
Proof.
  unfold dropna. induction 1 as [|r df [Hs Hv] _ IH]; simpl; auto.
  unfold isna_imdb_score, isna_imdb_votes.
  destruct (imdb_score r), (imdb_votes r); try congruence. simpl.
  f_equal. exact IH.
Qed.

(** X6. Duplicates are removed before the labels are made canonical, so two
    complete rows that differ only in the spelling of a show's [type] both
    survive the cleaning, as two identical rows. *)
Theorem cleaning_can_leave_duplicates (r : Row) (s : string) :
  imdb_score r <> None -> imdb_votes r <> None ->
  type r = Some s -> In s wrong_shows_list -> s <> correct_show ->
  preprocess [r; set_type r (Some correct_show)]
    = [set_type r (Some correct_show); set_type r (Some correct_show)]
  /\ ~ NoDupA same_row (preprocess [r; set_type r (Some correct_show)]).
Proof.
  intros Hs Hv Ht Hin Hne.
  assert (E : preprocess [r; set_type r (Some correct_show)]
              = [set_type r (Some correct_show); set_type r (Some correct_show)]).
  { unfold preprocess. rewrite dropna_keeps by (repeat constructor; assumption).
    assert (Hd : row_eqb (set_type r (Some correct_show)) r = false).
    { destruct (row_eqb (set_type r (Some correct_show)) r) eqn:F; auto.
      apply row_eqb_true in F. destruct F as (_ & _ & _ & _ & F & _).
      simpl in F. rewrite Ht in F. congruence. }
    unfold drop_duplicates.
    rewrite !drop_duplicates_from_cons. simpl existsb. rewrite Hd. simpl.
    unfold replace_wrong_shows. simpl map. rewrite Ht.
    rewrite (replace_listed _ _ _ Hin).
    replace (replace wrong_shows_list correct_show (Some correct_show))
      with (Some correct_show) by reflexivity.
    reflexivity. }
  split; [exact E|].
  rewrite E. intros H. inversion H as [|? ? Hnot _]; subst.
  apply Hnot. constructor. apply row_eqb_refl.
Qed.

Lemma cleaning_can_leave_duplicates_witness :
  preprocess [tv_row; set_type tv_row (Some correct_show)]
  = [set_type tv_row (Some correct_show); set_type tv_row (Some correct_show)].
Proof.
  apply (proj1 (cleaning_can_leave_duplicates tv_row "tv"%string
                  ltac:(discriminate) ltac:(discriminate)
                  ltac:(reflexivity) ltac:(simpl; tauto) ltac:(discriminate))).
Defined.

(** X7. After the replacement no row carries a listed variant other than the
    canonical label; this holds for the cleaned table in particular. *)
Theorem no_variant_after_replace (l : list string) (v : string) (df : DataFrame) :
  Forall (fun r => forall s, type r = Some s -> In s l -> s = v)
         (replace_wrong_shows l v df)
  /\ Forall (fun r => forall s, type r = Some s -> In s wrong_shows_list ->
                                s = "SHOW"%string)
            (preprocess df).
Proof.
  assert (H : forall l v df,
             Forall (fun r => forall s, type r = Some s -> In s l -> s = v)
                    (replace_wrong_shows l v df)).
  { clear. intros l v df. apply Forall_forall. intros r Hr s Hs Hin.
    unfold replace_wrong_shows in Hr. apply in_map_iff in Hr.
    destruct Hr as (r0 & <- & _). simpl in Hs.
    destruct (type r0) as [s0|]; simpl in Hs; [|discriminate].
    destruct (existsb (String.eqb s0) l) eqn:E.
    - congruence.
    - injection Hs as ->. exfalso.
      assert (F : existsb (String.eqb s) l = true).
      { apply existsb_exists. exists s. split; auto. apply String.eqb_refl. }
      congruence. }
  split; [apply H|]. unfold preprocess. apply H.
Qed.

Lemma replace_is_show (c : option string) :
  replace wrong_shows_list correct_show c = Some "SHOW"%string <->
  exists s, c = Some s /\ In s wrong_shows_list.
Proof.
  split.
  - destruct c as [s|]; unfold replace; [|discriminate].
    destruct (existsb (String.eqb s) wrong_shows_list) eqn:E.
    + intros _. exists s. split; auto.
      apply existsb_exists in E. destruct E as (x & Hx & Hs).
      apply String.eqb_eq in Hs. subst. exact Hx.
    + intros H. injection H as ->. discriminate E.
  - intros (s & -> & Hs). apply replace_listed. exact Hs.
Qed.

(** X8. With the labels made canonical first, the Golden Age filter selects
    exactly the rows released in 1999 or later whose original [type] is any
    of the six listed spellings, each with its [type] set to 'SHOW'. *)
Theorem golden_age_shows_of_variants (df : DataFrame) (r' : Row) :
  In r' (golden_age_shows (replace_wrong_shows wrong_shows_list correct_show df))
  <->
  exists r, In r df /\ 1999 <= release_year r
            /\ (exists s, type r = Some s /\ In s wrong_shows_list)
            /\ r' = set_type r (Some "SHOW"%string).
Proof.
  rewrite golden_age_shows_single_filter, filter_In.
  unfold replace_wrong_shows. rewrite in_map_iff. split.
  - intros [(r & <- & Hr) Hp]. apply andb_true_iff in Hp.
    destruct Hp as [Hy Ht]. simpl in Hy. apply Z.leb_le in Hy.
    unfold is_show in Ht. apply str_cell_eqb_eq in Ht. simpl in Ht.
    exists r. repeat split; auto.
    + apply replace_is_show. exact Ht.
    + rewrite Ht. reflexivity.
  - intros (r & Hr & Hy & Hs & ->).
    apply replace_is_show in Hs. split.
    + exists r. rewrite Hs. auto.
    + simpl. apply andb_true_iff. split; [apply Z.leb_le; exact Hy|reflexivity].
Qed.

(** ** Printed year range *)

Lemma fold_min_spec (xs : list Z) :
  forall x, In (fold_left Z.min xs x) (x :: xs)
            /\ Forall (fun y => fold_left Z.min xs x <= y) (x :: xs).
Proof.
  induction xs as [|y xs IH]; intros x; simpl.
  - split; auto. constructor; [lia | constructor].
  - destruct (IH (Z.min x y)) as [Hin Hall]. split.
    + destruct Hin as [Hin | Hin]; auto.
      rewrite <- Hin. destruct (Z.min_spec x y) as [[_ ->] | [_ ->]]; auto.
    + inversion Hall as [|? ? Hm Hrest]; subst.
      constructor; [lia|]. constructor; [lia | exact Hrest].
Qed.

Lemma fold_max_spec (xs : list Z) :
  forall x, In (fold_left Z.max xs x) (x :: xs)
            /\ Forall (fun y => y <= fold_left Z.max xs x) (x :: xs).
Proof.
  induction xs as [|y xs IH]; intros x; simpl.
  - split; auto. constructor; [lia | constructor].
  - destruct (IH (Z.max x y)) as [Hin Hall]. split.
    + destruct Hin as [Hin | Hin]; auto.
      rewrite <- Hin. destruct (Z.max_spec x y) as [[_ ->] | [_ ->]]; auto.
    + inversion Hall as [|? ? Hm Hrest]; subst.
      constructor; [lia|]. constructor; [lia | exact Hrest].
Qed.

(** X9. The year range printed after the filter starts no earlier than 1999:
    both ends are release years of rows of the filtered table, the lower
    end is at least 1999 and at most the upper end; both are missing only
    when the filtered table is empty. *)
Theorem year_range_from_1999 (df : DataFrame) :
  match series_min (map release_year (golden_age_shows df)),
        series_max (map release_year (golden_age_shows df)) with
  | Some lo, Some hi =>
      1999 <= lo <= hi
      /\ In lo (map release_year (golden_age_shows df))
      /\ In hi (map release_year (golden_age_shows df))
  | None, None => golden_age_shows df = []
  | _, _ => False
  end.
Proof.
  assert (Hall : Forall (fun y => 1999 <= y)
                        (map release_year (golden_age_shows df))).
  { apply Forall_map, Forall_forall. intros r Hr.
    rewrite golden_age_shows_single_filter in Hr. apply filter_In in Hr.
    destruct Hr as [_ Hp]. apply andb_true_iff in Hp.
    apply Z.leb_le. tauto. }
  destruct (golden_age_shows df) as [|r gas]; simpl; [reflexivity|].
  destruct (fold_min_spec (map release_year gas) (release_year r)) as [Hin Hlo].
  destruct (fold_max_spec (map release_year gas) (release_year r)) as [Hin' Hhi].
  simpl in Hall. rewrite Forall_forall in Hall, Hlo, Hhi.
  repeat split; auto.
Qed.

(** ** Score distribution and distinct titles *)

Lemma list_sum_zero {A : Type} (l : list A) :
  list_sum (map (fun _ => 0%nat) l) = 0%nat.
Proof. induction l; simpl; auto. Qed.

Lemma list_sum_plus {A : Type} (f g : A -> nat) (l : list A) :
  list_sum (map (fun x => (f x + g x)%nat) l)
  = (list_sum (map f l) + list_sum (map g l))%nat.
Proof. induction l as [|x l IH]; simpl; auto. rewrite IH. lia. Qed.

Lemma list_sum_indicator {A : Type} (p : A -> bool) (l : list A) :
  list_sum (map (fun x => if p x then 1%nat else 0%nat) l)
  = List.length (filter p l).
Proof.
  induction l as [|x l IH]; simpl; auto.
  destruct (p x); simpl; rewrite IH; reflexivity.
Qed.

(** Counting the rows of each group and adding up, or counting for each row
    the groups it falls in and adding up, is the same. *)
Lemma group_counts_swap (ks : list Q) (l : DataFrame) :
  list_sum (map (fun k => List.length (group_rows k l)) ks)
  = list_sum (map (fun r => List.length (filter (fun k => has_score k r) ks)) l).
Proof.
  unfold group_rows. induction l as [|r l IH]; simpl.
  - apply list_sum_zero.
  - rewrite <- IH, <- list_sum_indicator, <- list_sum_plus.
    f_equal. apply map_ext. intros k.
    destruct (has_score k r); reflexivity.
Qed.

Lemma no_key_above (s : Q) (ks : list Q) (k : Q) :
  (s == k)%Q -> Forall (Qlt k) ks -> filter (Qeq_bool s) ks = [].
Proof.
  intros Hsk Hall. induction Hall as [|k' ks Hk' _ IH]; simpl; auto.
  destruct (Qeq_bool s k') eqn:E; auto.
  apply Qeq_bool_iff in E. rewrite <- E, Hsk in Hk'.
  exfalso. exact (Qlt_irrefl _ Hk').
Qed.

Lemma one_key_per_score (s : Q) (ks : list Q) :
  StronglySorted Qlt ks ->
  (exists k, In k ks /\ (k == s)%Q) ->
  List.length (filter (Qeq_bool s) ks) = 1%nat.
Proof.
  induction 1 as [|k ks Hs IH Hall]; intros (x & Hx & Hxs); [contradiction|].
  simpl. destruct (Qeq_bool s k) eqn:E.
  - apply Qeq_bool_iff in E. rewrite (no_key_above s ks k E Hall). reflexivity.
  - destruct Hx as [-> | Hx].
    + symmetry in Hxs. apply Qeq_bool_iff in Hxs. congruence.
    + apply IH. exists x. auto.
Qed.

Lemma rows_counted_once (ks : list Q) (l : DataFrame) :
  StronglySorted Qlt ks ->
  (forall r s, In r l -> imdb_score r = Some s ->
               exists k, In k ks /\ (k == s)%Q) ->
  list_sum (map (fun r => List.length (filter (fun k => has_score k r) ks)) l)
  = List.length (filter (fun r => negb (isna (imdb_score r))) l).
Proof.
  intros Hs. induction l as [|r l IH]; intros Hcov; [reflexivity|].
  simpl. rewrite IH by (intros; eapply Hcov; simpl; eauto).
  assert (Hf : filter (fun k => has_score k r) ks
               = match imdb_score r with
                 | Some s => filter (Qeq_bool s) ks
                 | None => []
                 end).
  { unfold has_score. destruct (imdb_score r); [reflexivity|].
    clear. induction ks; simpl; auto. }
  rewrite Hf. destruct (imdb_score r) as [s|] eqn:Es; simpl; [|reflexivity].
  rewrite (one_key_per_score s ks Hs); [reflexivity|].
  apply (Hcov r s); simpl; auto.
Qed.

Lemma unique_strings_length (l : list (option string)) :
  (List.length (unique_strings l) <= List.length l)%nat.
Proof.
  induction l as [|[s|] l IH]; simpl; [lia | | lia].
  destruct (existsb (String.eqb s) (unique_strings l)); simpl; lia.
Qed.

Lemma group_rows_nonempty (gas : DataFrame) (k : Q) :
  In k (group_keys gas) -> (1 <= List.length (group_rows k gas))%nat.
Proof.
  intros H. apply group_keys_In in H. destruct H as (r & Hr & Hs).
  assert (Hin : In r (group_rows k gas)).
  { unfold group_rows. apply filter_In. split; auto.
    unfold has_score. rewrite Hs. apply Qeq_bool_refl. }
  destruct (group_rows k gas); [contradiction | simpl; lia].
Qed.

(** X10. The printed score distribution counts every row with a score exactly
    once and lists no empty score; it has the scores of the distinct-title
    listing, in the same order, and a score never has more distinct titles
    than rows. *)
Theorem score_distribution_counts (gas : DataFrame) :
  list_sum (map snd (score_distribution gas))
    = List.length (filter (fun r => negb (isna (imdb_score r))) gas)
  /\ Forall (fun d => (1 <= snd d)%nat) (score_distribution gas)
  /\ map fst (score_counts gas) = map fst (score_distribution gas)
  /\ Forall2 (fun c d => (snd c <= snd d)%nat)
             (score_counts gas) (score_distribution gas).
Proof.
  unfold score_distribution, score_counts. split; [|split; [|split]].
  - rewrite map_map. simpl. rewrite group_counts_swap.
    apply rows_counted_once.
    + apply group_keys_sorted.
    + intros r s Hr Hs. eapply group_keys_covers; eauto.
  - apply Forall_map, Forall_forall. intros k Hk. simpl.
    apply group_rows_nonempty. exact Hk.
  - rewrite !map_map. reflexivity.
  - induction (group_keys gas) as [|k ks IH]; simpl; constructor; auto.
    simpl. unfold nunique.
    etransitivity; [apply unique_strings_length|].
    rewrite length_map. lia.
Qed.

(** ** Size and range of the report *)

Lemma NoDup_incl_length_le {A : Type} (l l' : list A) :
  NoDup l -> incl l l' -> (List.length l <= List.length l')%nat.
Proof. apply NoDup_incl_length. Qed.

(** X12. The report has at most six rows, one per rating from 4 to 9. *)
Theorem results_at_most_six_rows (df : DataFrame) :
  (List.length (results df) <= 6)%nat
  /\ incl (map fst (results df))
          [(4 # 1); (5 # 1); (6 # 1); (7 # 1); (8 # 1); (9 # 1)]%Q.
Proof.
  assert (Hincl : incl (map fst (results df))
                    [(4 # 1); (5 # 1); (6 # 1); (7 # 1); (8 # 1); (9 # 1)]%Q).
  { intros x Hx. apply in_map_iff in Hx. destruct Hx as ([y a] & <- & Hp).
    apply results_In in Hp. destruct Hp as (k & -> & Hk & _). simpl.
    assert (Hc : k = 4 \/ k = 5 \/ k = 6 \/ k = 7 \/ k = 8 \/ k = 9) by lia.
    unfold inject_Z.
    destruct Hc as [-> | [-> | [-> | [-> | [-> | ->]]]]]; tauto. }
  split; [|exact Hincl].
  rewrite <- (length_map fst).
  apply (NoDup_incl_length_le _ _ (results_keys_NoDup df) Hincl).
Qed.

Lemma inject_Z_of_nat_S (n : nat) :
  (inject_Z (Z.of_nat (S n)) == inject_Z (Z.of_nat n) + 1)%Q.
Proof. rewrite Nat2Z.inj_succ. unfold Z.succ. rewrite inject_Z_plus. reflexivity. Qed.

Lemma Qsum_bounds (lo hi : Q) (l : list Q) :
  Forall (fun v => lo <= v /\ v <= hi)%Q l ->
  (inject_Z (Z.of_nat (List.length l)) * lo <= Qsum l
   /\ Qsum l <= inject_Z (Z.of_nat (List.length l)) * hi)%Q.
Proof.
  induction 1 as [|v l [Hlo Hhi] _ [IHlo IHhi]].
  - change (inject_Z (Z.of_nat (List.length (@nil Q)))) with 0%Q.
    change (Qsum []) with 0%Q. split; lra.
  - change (Qsum (v :: l)) with (v + Qsum l)%Q.
    change (List.length (v :: l)) with (S (List.length l)).
    rewrite inject_Z_of_nat_S. split; lra.
Qed.

Lemma present_Forall (P : Q -> Prop) (l : list (option Q)) :
  Forall (fun c => forall v, c = Some v -> P v) l -> Forall P (present l).
Proof.
  induction 1 as [|[v|] l Hc _ IH]; simpl; auto.
Qed.

Lemma mean_bounds (lo hi : Q) (l : list (option Q)) (m : Q) :
  Forall (fun c => forall v, c = Some v -> lo <= v /\ v <= hi)%Q l ->
  mean l = Some m -> (lo <= m /\ m <= hi)%Q.
Proof.
  intros Hall Hm. apply present_Forall in Hall. unfold mean in Hm.
  destruct (present l) as [|v vs] eqn:E; [discriminate|].
  injection Hm as <-.
  destruct (Qsum_bounds lo hi (v :: vs) Hall) as [Hlo Hhi].
  assert (Hn : (0 < inject_Z (Z.of_nat (List.length (v :: vs))))%Q).
  { change 0%Q with (inject_Z 0). rewrite <- Zlt_Qlt. simpl. lia. }
  split.
  - apply Qle_shift_div_l; [exact Hn|]. rewrite Qmult_comm. exact Hlo.
  - apply Qle_shift_div_r; [exact Hn|]. rewrite Qmult_comm. exact Hhi.
Qed.

Lemma round_half_even_bounds (lo hi : Z) (q : Q) :
  (inject_Z lo <= q)%Q -> (q <= inject_Z hi)%Q ->
  lo <= round_half_even q <= hi.
Proof.
  intros Hlo Hhi.
  pose proof (Qfloor_le q) as Hfl.
  assert (Hlof : lo <= Qfloor q).
  { rewrite <- (Qfloor_Z lo). apply Qfloor_resp_le. exact Hlo. }
  assert (Hflhi : Qfloor q <= hi).
  { rewrite Zle_Qle. eapply Qle_trans; eauto. }
  assert (Hup : (1 # 2 <= q - inject_Z (Qfloor q))%Q -> Qfloor q + 1 <= hi).
  { intros H. assert (Hlt : Qfloor q < hi); [|lia].
    rewrite Zlt_Qlt. lra. }
  rewrite round_half_even_frac.
  destruct (q - inject_Z (Qfloor q) ?= 1 # 2)%Q eqn:E.
  - apply Qeq_alt in E.
    destruct (Z.even (Qfloor q)); [lia|].
    split; [lia|]. apply Hup. lra.
  - lia.
  - apply Qgt_alt in E. split; [lia|]. apply Hup. lra.
Qed.

(** X13. A reported average never leaves the range of the vote counts: on
    a table whose vote counts are in the range of exact arithmetic, when
    every present vote count lies between two integers, so does every value
    of the report. *)
Theorem results_within_vote_range (df : DataFrame) (lo hi : Z) :
  votes_in_range df = true ->
  Forall (fun r => forall v, imdb_votes r = Some v ->
                             (inject_Z lo <= v /\ v <= inject_Z hi)%Q) df ->
  Forall (fun p => forall a, snd p = Some a ->
                             (inject_Z lo <= a /\ a <= inject_Z hi)%Q)
         (results df).
Proof.
  intros _ Hall. apply Forall_forall. intros [x a'] Hp a Ha.
  apply results_In in Hp. destruct Hp as (k & _ & _ & _ & ->). simpl in Ha.
  destruct (mean (bucket_votes k df)) as [m|] eqn:Em; [|discriminate].
  simpl in Ha. injection Ha as <-.
  assert (Hm : (inject_Z lo <= m /\ m <= inject_Z hi)%Q).
  { apply (mean_bounds _ _ (bucket_votes k df)); [|exact Em].
    unfold bucket_votes, bucket. apply Forall_map, Forall_forall.
    intros r Hr. apply filter_In in Hr. destruct Hr as [Hr _].
    rewrite Forall_forall in Hall. apply Hall. exact Hr. }
  destruct Hm as [Hlo Hhi].
  destruct (round_half_even_bounds lo hi m Hlo Hhi) as [H1 H2].
  unfold series_round. rewrite <- !Zle_Qle. split; assumption.
Qed.

Lemma results_within_vote_range_witness :
  Forall (fun p => forall a, snd p = Some a ->
                             (inject_Z 100000 <= a /\ a <= inject_Z 150000)%Q)
         (results bucket9_table).
Proof.
  apply (results_within_vote_range bucket9_table 100000 150000 eq_refl).
  repeat constructor; simpl in H; injection H as <-; discriminate.
Defined.

(** ** Order of the input rows *)

Lemma filter_perm {A : Type} (p : A -> bool) (l l' : list A) :
  Permutation l l' -> Permutation (filter p l) (filter p l').
Proof.
  induction 1 as [|x l l' _ IH|x y l|l l' l'' _ IH1 _ IH2]; simpl.
  - constructor.
  - destruct (p x); auto.
  - destruct (p x), (p y); auto. apply perm_swap.
  - eapply Permutation_trans; eauto.
Qed.

Lemma present_perm (l l' : list (option Q)) :
  Permutation l l' -> Permutation (present l) (present l').
Proof.
  induction 1 as [|[x|] l l' _ IH|[x|] [y|] l|l l' l'' _ IH1 _ IH2]; simpl;
    auto.
  - apply perm_swap.
  - eapply Permutation_trans; eauto.
Qed.

Lemma Qsum_perm (l l' : list Q) :
  Permutation l l' -> (Qsum l == Qsum l')%Q.
Proof.
  induction 1 as [|x l l' _ IH|x y l|l l' l'' _ IH1 _ IH2].
  - reflexivity.
  - change (x + Qsum l == x + Qsum l')%Q. rewrite IH. reflexivity.
  - change (y + (x + Qsum l) == x + (y + Qsum l))%Q. ring.
  - rewrite IH1. exact IH2.
Qed.

Lemma mean_round_perm (l l' : list (option Q)) :
  Permutation l l' ->
  option_map series_round (mean l) = option_map series_round (mean l').
Proof.
  intros H. apply present_perm in H. unfold mean.
  pose proof (Permutation_length H) as Hlen.
  pose proof (Qsum_perm _ _ H) as Hsum.
  destruct (present l) as [|v vs], (present l') as [|v' vs'];
    try discriminate Hlen; [reflexivity|].
  cbn [option_map]. unfold series_round. do 2 f_equal.
  apply round_half_even_Qeq. apply Qdiv_comp; [exact Hsum|].
  rewrite Hlen. reflexivity.
Qed.

Lemma sorted_keys_ext (l1 : list Q) :
  forall l2, StronglySorted Qlt l1 -> StronglySorted Qlt l2 ->
             (forall x, In x l1 <-> In x l2) -> l1 = l2.
Proof.
  induction l1 as [|a l1 IH]; intros l2 H1 H2 Hext.
  - destruct l2 as [|b l2]; auto.
    exfalso. apply (proj2 (Hext b)). left. reflexivity.
  - destruct l2 as [|b l2].
    + exfalso. apply (proj1 (Hext a)). left. reflexivity.
    + inversion H1 as [|? ? Hs1 Ha]; subst.
      inversion H2 as [|? ? Hs2 Hb]; subst.
      rewrite Forall_forall in Ha, Hb.
      assert (Hab : a = b).
      { destruct (proj1 (Hext a) (or_introl eq_refl)) as [E | Hin]; auto.
        destruct (proj2 (Hext b) (or_introl eq_refl)) as [E | Hin']; auto.
        exfalso. apply (Qlt_irrefl a).
        eapply Qlt_trans; [apply Ha; exact Hin' | apply Hb; exact Hin]. }
      subst b. f_equal. apply IH; auto.
      intros x. split; intros Hx.
      * destruct (proj1 (Hext x) (or_intror Hx)) as [E | Hin]; auto.
        subst x. exfalso. exact (Qlt_irrefl _ (Ha _ Hx)).
      * destruct (proj2 (Hext x) (or_intror Hx)) as [E | Hin]; auto.
        subst x. exfalso. exact (Qlt_irrefl _ (Hb _ Hx)).
Qed.

Lemma bucket_perm (k : Z) (df df' : DataFrame) :
  Permutation df df' -> Permutation (bucket k df) (bucket k df').
Proof. apply filter_perm. Qed.

Lemma bucket_nonempty_perm (k : Z) (df df' : DataFrame) :
  Permutation df df' -> bucket k df <> [] -> bucket k df' <> [].
Proof.
  intros H Hne E. apply bucket_perm with (k := k) in H. rewrite E in H.
  apply Permutation_sym, Permutation_nil in H. contradiction.
Qed.

(** X14. On a table whose vote counts are in the range of exact arithmetic,
    the report does not depend on the order of the rows. *)
Theorem results_order_independent (df df' : DataFrame) :
  votes_in_range df = true ->
  Permutation df df' -> results df = results df'.
Proof.
  intros _ H. unfold results. f_equal. unfold avg_votes_by_score.
  assert (Hkeys : group_keys (analysis_df (golden_age_shows_rounded df))
                  = group_keys (analysis_df (golden_age_shows_rounded df'))).
  { apply sorted_keys_ext; try apply group_keys_sorted.
    intros x. rewrite !group_keys_analysis.
    split; intros (k & Hx & Hk & Hb); exists k;
      (split; [exact Hx | split; [exact Hk|]]).
    - eapply bucket_nonempty_perm; eauto.
    - eapply bucket_nonempty_perm; [apply Permutation_sym|]; eauto. }
  rewrite <- Hkeys. apply map_ext_in. intros x Hx. f_equal.
  apply group_keys_analysis in Hx. destruct Hx as (k & -> & Hk & _).
  rewrite !bucket_avg_rounded by exact Hk.
  apply mean_round_perm. unfold bucket_votes.
  apply Permutation_map, bucket_perm. exact H.
Qed.

Lemma results_order_independent_witness :
  results bucket9_table = results (rev bucket9_table).
Proof.
  apply (results_order_independent bucket9_table (rev bucket9_table) eq_refl).
  apply Permutation_rev.
Defined.

(** ** The bar chart *)

Lemma Qsum_lower (lo : Q) (l : list Q) :
  Forall (fun v => lo <= v)%Q l ->
  (inject_Z (Z.of_nat (List.length l)) * lo <= Qsum l)%Q.
Proof.
  induction 1 as [|v l Hlo _ IH].
  - change (inject_Z (Z.of_nat (List.length (@nil Q)))) with 0%Q.
    change (Qsum []) with 0%Q. lra.
  - change (Qsum (v :: l)) with (v + Qsum l)%Q.
    change (List.length (v :: l)) with (S (List.length l)).
    rewrite inject_Z_of_nat_S. lra.
Qed.

Lemma mean_lower (lo : Q) (l : list (option Q)) (m : Q) :
  Forall (fun c => forall v, c = Some v -> lo <= v)%Q l ->
  mean l = Some m -> (lo <= m)%Q.
Proof.
  intros Hall Hm. apply present_Forall in Hall. unfold mean in Hm.
  destruct (present l) as [|v vs] eqn:E; [discriminate|].
  injection Hm as <-.
  pose proof (Qsum_lower lo (v :: vs) Hall) as Hlo.
  apply Qle_shift_div_l; [|rewrite Qmult_comm; exact Hlo].
  change 0%Q with (inject_Z 0). rewrite <- Zlt_Qlt. simpl. lia.
Qed.

Lemma preprocess_votes (df : DataFrame) (r : Row) :
  In r (preprocess df) -> exists r0, In r0 df /\ imdb_votes r = imdb_votes r0.
Proof.
  unfold preprocess, replace_wrong_shows. intros H.
  apply in_map_iff in H. destruct H as (r0 & <- & Hr0).
  apply drop_duplicates_In, dropna_In in Hr0. exists r0. split; tauto.
Qed.

Lemma pipeline_values (df : DataFrame) :
  Forall (fun r => forall v, imdb_votes r = Some v -> (0 <= v)%Q) df ->
  Forall (fun p => exists z, snd p = Some (inject_Z z) /\ 0 <= z) (pipeline df).
Proof.
  intros Hall. apply Forall_forall. intros [x a] Hp. unfold pipeline in Hp.
  pose proof (pipeline_values_present df) as Hpres.
  rewrite Forall_forall in Hpres. specialize (Hpres _ Hp). simpl in Hpres.
  apply results_In in Hp. destruct Hp as (k & _ & _ & _ & ->). simpl.
  destruct (mean (bucket_votes k (preprocess df))) as [m|] eqn:Em;
    [|simpl in Hpres; congruence].
  simpl. exists (round_half_even m). split; [reflexivity|].
  assert (Hm : (inject_Z 0 <= m)%Q).
  { apply (mean_lower _ (bucket_votes k (preprocess df))); [|exact Em].
    unfold bucket_votes, bucket. apply Forall_map, Forall_forall.
    intros r Hr v Hv. apply filter_In in Hr. destruct Hr as [Hr _].
    destruct (preprocess_votes df r Hr) as (r0 & Hr0 & E).
    rewrite Forall_forall in Hall. apply (Hall r0 Hr0). congruence. }
  apply (round_half_even_bounds 0 (Qceiling m) m Hm (Qle_ceiling m)).
Qed.

Lemma fold_Qmax_head (vs : list Q) (v : Q) :
  Forall (fun y => y <= v)%Q vs ->
  forall v', (v' == v)%Q -> (fold_left Qmax_bool vs v' == v)%Q.
Proof.
  induction 1 as [|y vs Hy _ IH]; intros v' Hv'; simpl; [exact Hv'|].
  apply IH. unfold Qmax_bool.
  destruct (Qle_bool v' y) eqn:E; [|exact Hv'].
  apply Qle_bool_iff in E. rewrite Hv' in E. apply Qle_antisym; assumption.
Qed.

Lemma int_of_float_integer (z : Z) : int_of_float (Some (inject_Z z)) = Some z.
Proof. simpl. rewrite Z.quot_1_r. reflexivity. Qed.

Lemma trunc_nonneg (q : Q) :
  (0 <= q)%Q -> Z.quot (Qnum q) (Zpos (Qden q)) = Qfloor q.
Proof.
  destruct q as [n d]. unfold Qle. simpl. intros H.
  apply Z.quot_div_nonneg; lia.
Qed.

Lemma bar_length_range (z : Z) (m : Q) :
  (0 < m)%Q -> 0 <= z -> (inject_Z z <= m)%Q ->
  exists len, bar_length z (Some m) = Some len /\ 0 <= len <= 40
              /\ ((inject_Z z == m)%Q -> len = 40).
Proof.
  intros Hm Hz Hzm. unfold bar_length.
  assert (Hne : Qeq_bool m 0 = false).
  { destruct (Qeq_bool m 0) eqn:E; auto.
    apply Qeq_bool_iff in E. rewrite E in Hm. exfalso. exact (Qlt_irrefl _ Hm). }
  rewrite Hne. unfold int_of_float.
  assert (H0 : (0 <= inject_Z z / m)%Q).
  { apply Qle_shift_div_l; [exact Hm|]. rewrite Qmult_0_l.
    change 0%Q with (inject_Z 0). rewrite <- Zle_Qle. exact Hz. }
  assert (H1 : (inject_Z z / m <= 1)%Q).
  { apply Qle_shift_div_r; [exact Hm|]. rewrite Qmult_1_l. exact Hzm. }
  assert (Hq0 : (0 <= inject_Z z / m * 40)%Q) by lra.
  assert (Hq40 : (inject_Z z / m * 40 <= inject_Z 40)%Q)
    by (change (inject_Z 40) with 40%Q; lra).
  rewrite (trunc_nonneg _ Hq0).
  exists (Qfloor (inject_Z z / m * 40)). split; [reflexivity|]. split.
  - split.
    + change 0 with (Qfloor 0). apply Qfloor_resp_le. exact Hq0.
    + rewrite <- (Qfloor_Z 40). apply Qfloor_resp_le. exact Hq40.
  - intros E. rewrite <- (Qfloor_Z 40). apply Qfloor_comp.
    rewrite E. unfold Qdiv. rewrite Qmult_inv_r; [reflexivity|].
    intros F. rewrite F in Hm. exact (Qlt_irrefl _ Hm).
Qed.

Lemma chart_rows_ok (m : Q) (res : list (Q * option Q)) :
  (0 < m)%Q ->
  Forall (fun p => exists z, snd p = Some (inject_Z z) /\ 0 <= z
                             /\ (inject_Z z <= m)%Q) res ->
  exists rows, chart_rows (Some m) res = Some rows
               /\ List.length rows = List.length res
               /\ Forall (fun t => 0 <= snd (fst t) <= 40) rows
               /\ Forall2 (fun p t => snd p = Some (inject_Z (snd t))) res rows.
Proof.
  intros Hm. induction 1 as [|[s a] res (z & Ha & Hz & Hzm) _ IH].
  - exists []. repeat split; constructor.
  - destruct IH as (rows & Hrows & Hlen & Hall & Hvotes).
    destruct (bar_length_range z m Hm Hz Hzm) as (len & Hlen' & Hrange & _).
    simpl in Ha. subst a.
    exists ((Z.quot (Qnum s) (Zpos (Qden s)), len, z) :: rows).
    split; [|split; [|split]].
    + cbn [chart_rows]. rewrite int_of_float_integer. cbn [int_of_float].
      rewrite Hlen', Hrows. reflexivity.
    + simpl. rewrite Hlen. reflexivity.
    + constructor; auto.
    + constructor; auto.
Qed.

Lemma sorted_head_max (p : Q * option Q) (res : list (Q * option Q)) (z : Z) :
  StronglySorted avg_votes_ge (p :: res) ->
  snd p = Some (inject_Z z) ->
  Forall (fun p' => exists z', snd p' = Some (inject_Z z') /\ 0 <= z') res ->
  Forall (fun p' => exists z', snd p' = Some (inject_Z z') /\ 0 <= z'
                               /\ (inject_Z z' <= inject_Z z)%Q) res
  /\ Forall (fun y => (y <= inject_Z z)%Q) (present (map snd res)).
Proof.
  intros Hs Hp Hall. inversion Hs as [|? ? _ Hhead]; subst.
  clear Hs. induction res as [|p' res IH]; [split; constructor|].
  inversion Hall as [|? ? (z' & Hz' & Hpos) Hall']; subst.
  inversion Hhead as [|? ? Hge Hhead']; subst.
  destruct (IH Hall' Hhead') as [IH1 IH2].
  unfold avg_votes_ge in Hge. rewrite Hp, Hz' in Hge.
  split.
  - constructor; auto. exists z'. auto.
  - simpl. rewrite Hz'. simpl. constructor; auto.
Qed.

Lemma votes_in_range_nonneg (df : DataFrame) :
  votes_in_range df = true ->
  Forall (fun r => forall v, imdb_votes r = Some v -> (0 <= v)%Q) df.
Proof.
  unfold votes_in_range. intros H. apply andb_true_iff in H.
  destruct H as [H _]. rewrite forallb_forall in H.
  apply Forall_forall. intros r Hr v Hv. specialize (H r Hr).
  rewrite Hv in H. simpl in H. apply andb_true_iff in H.
  apply Qle_bool_iff. tauto.
Qed.

(** X16. The bar chart of the pipeline's report, for a table in which no
    row misses its type and the vote counts are in the range of exact
    arithmetic.  An empty report prints no row.  When the top row of the
    report has average 0 the first division is by zero and the loop raises
    on the first row.  Otherwise every row is printed with its votes and a
    bar of 0 to 40 blocks, and the bar of the top row has all 40. *)
Theorem visualization_of_pipeline (df : DataFrame) :
  votes_in_range df = true ->
  types_present df = true ->
  match pipeline df with
  | [] => visualization (pipeline df) = Some []
  | (_, top) :: _ =>
      exists z, top = Some (inject_Z z) /\ 0 <= z /\
        if z =? 0 then visualization (pipeline df) = None
        else exists rows,
            visualization (pipeline df) = Some rows
            /\ List.length rows = List.length (pipeline df)
            /\ Forall (fun t => 0 <= snd (fst t) <= 40) rows
            /\ Forall2 (fun p t => snd p = Some (inject_Z (snd t)))
                       (pipeline df) rows
            /\ (exists t, hd_error rows = Some t /\ snd (fst t) = 40)
  end.
Proof.
  intros Hrange _. pose proof (votes_in_range_nonneg df Hrange) as Hall.
  pose proof (pipeline_values df Hall) as Hvals.
  assert (Hsorted : StronglySorted avg_votes_ge (pipeline df))
    by apply sort_values_sorted.
  destruct (pipeline df) as [|[s top] res]; [reflexivity|].
  inversion Hvals as [|? ? (z & Htop & Hz) Hrest]; subst. simpl in Htop.
  exists z. split; [exact Htop|]. split; [exact Hz|].
  destruct (sorted_head_max (s, top) res z Hsorted Htop Hrest) as [Hle Hmax].
  assert (Hm : exists m, max_votes ((s, top) :: res) = Some m
                         /\ (m == inject_Z z)%Q).
  { unfold max_votes. simpl. rewrite Htop. simpl.
    eexists. split; [reflexivity|]. apply fold_Qmax_head; [exact Hmax|].
    reflexivity. }
  destruct Hm as (m & Hmv & Hmz). unfold visualization. rewrite Hmv.
  destruct (z =? 0) eqn:Ez.
  - apply Z.eqb_eq in Ez. subst z. cbn [chart_rows].
    rewrite Htop. rewrite int_of_float_integer. cbn [int_of_float].
    unfold bar_length.
    assert (E : Qeq_bool m 0 = true) by (apply Qeq_bool_iff; exact Hmz).
    rewrite E. reflexivity.
  - apply Z.eqb_neq in Ez.
    assert (Hpos : (0 < m)%Q).
    { rewrite Hmz. change 0%Q with (inject_Z 0). rewrite <- Zlt_Qlt. lia. }
    assert (Hrows : Forall (fun p => exists z', snd p = Some (inject_Z z')
                                       /\ 0 <= z' /\ (inject_Z z' <= m)%Q)
                           ((s, top) :: res)).
    { constructor.
      - exists z. repeat split; auto. rewrite Hmz. apply Qle_refl.
      - eapply Forall_impl; [|exact Hle].
        intros p (z' & H1 & H2 & H3). exists z'. repeat split; auto.
        rewrite Hmz. exact H3. }
    destruct (chart_rows_ok m _ Hpos Hrows) as (rows & Hc & Hlen & Hr & Hv).
    exists rows. repeat split; auto.
    destruct (bar_length_range z m Hpos Hz) as (len & Hb & _ & Hfull).
    { rewrite Hmz. apply Qle_refl. }
    cbn [chart_rows] in Hc. rewrite Htop, int_of_float_integer in Hc.
    cbn [int_of_float] in Hc. rewrite Hb in Hc.
    destruct (chart_rows (Some m) res) as [rest|]; [|discriminate].
    injection Hc as <-. eexists. split; [reflexivity|]. simpl.
    apply Hfull. symmetry. exact Hmz.
Qed.

Lemma visualization_of_pipeline_witness :
  exists z, Some (0 # 1)%Q = Some (inject_Z z) /\ 0 <= z /\
    if z =? 0 then visualization (pipeline no_votes_table) = None
    else exists rows,
        visualization (pipeline no_votes_table) = Some rows
        /\ List.length rows = List.length (pipeline no_votes_table)
        /\ Forall (fun t => 0 <= snd (fst t) <= 40) rows
        /\ Forall2 (fun p t => snd p = Some (inject_Z (snd t)))
                   (pipeline no_votes_table) rows
        /\ (exists t, hd_error rows = Some t /\ snd (fst t) = 40).
Proof.
  apply (visualization_of_pipeline no_votes_table); reflexivity.
Defined.

(** ** Rounding preserves the order of ratings *)

Lemma round_half_even_monotone (p q : Q) :
  (p <= q)%Q -> round_half_even p <= round_half_even q.
Proof.
  intros Hpq.
  destruct (Z_le_gt_dec (round_half_even p) (round_half_even q)) as [H | H];
    [exact H|].
  exfalso.
  pose proof (round_half_even_nearest p) as Hp.
  pose proof (round_half_even_nearest q) as Hq.
  apply Qabs_Qle_condition in Hp. apply Qabs_Qle_condition in Hq.
  assert (Hz : (inject_Z (round_half_even q) + 1 <= inject_Z (round_half_even p))%Q).
  { change 1%Q with (inject_Z 1). rewrite <- inject_Z_plus, <- Zle_Qle. lia. }
  assert (E : (p == q)%Q) by (apply Qle_antisym; [exact Hpq | lra]).
  rewrite (round_half_even_Qeq _ _ E) in H. lia.
Qed.

(** X15. A higher rating never lands in a lower bucket, a rating that is already
    an integer keeps its value, and rounding the rounded column again
    changes nothing. *)
Theorem rounding_monotone_idempotent :
  (forall p q, (p <= q)%Q -> (series_round p <= series_round q)%Q)
  /\ (forall z, series_round (inject_Z z) = inject_Z z)
  /\ (forall gas, round_scores (round_scores gas) = round_scores gas).
Proof.
  split; [|split].
  - intros p q H. unfold series_round. rewrite <- Zle_Qle.
    apply round_half_even_monotone. exact H.
  - intros z. unfold series_round. rewrite round_half_even_integer. reflexivity.
  - intros gas. unfold round_scores. rewrite map_map. apply map_ext.
    intros r. unfold set_imdb_score. simpl.
    destruct (imdb_score r) as [s|]; simpl; [|reflexivity].
    unfold series_round. rewrite round_half_even_integer. reflexivity.
Qed.

Lemma rounding_monotone_idempotent_witness :
  (series_round (74 # 10) <= series_round (75 # 10))%Q.
Proof.
  apply (proj1 rounding_monotone_idempotent (74 # 10)%Q (75 # 10)%Q).
  unfold Qle. simpl. lia.
Defined.

(** ** Distinct titles *)

Lemma unique_strings_spec (l : list (option string)) :
  NoDup (unique_strings l)
  /\ (forall s, In s (unique_strings l) <-> In (Some s) l).
Proof.
  induction l as [|[s|] l [IHnd IHin]]; simpl.
  - split; [constructor | tauto].
  - destruct (existsb (String.eqb s) (unique_strings l)) eqn:E.
    + split; [exact IHnd|]. intros x. rewrite IHin. split; [tauto|].
      intros [H | H]; [|exact H]. injection H as <-.
      apply existsb_exists in E. destruct E as (y & Hy & Hs).
      apply String.eqb_eq in Hs. subst y. apply IHin. exact Hy.
    + assert (Hnot : ~ In s (unique_strings l)).
      { intros H. assert (F : existsb (String.eqb s) (unique_strings l) = true).
        { apply existsb_exists. exists s. split; auto. apply String.eqb_refl. }
        congruence. }
      split; [constructor; assumption|].
      intros x. simpl. rewrite IHin. split.
      * intros [-> | H]; auto.
      * intros [H | H]; auto. injection H as ->. auto.
  - split; [exact IHnd|]. intros x. rewrite IHin. split; [tauto|].
    intros [H | H]; [discriminate H | exact H].
Qed.

(** X11. Each number of the distinct-title listing is the size of a list of
    titles without repetition that holds exactly the present titles of the
    rows with that score. *)
Theorem score_counts_distinct_titles (gas : DataFrame) :
  Forall
    (fun c =>
       exists titles,
         NoDup titles
         /\ (forall t, In t titles <->
                       exists r, In r gas /\ has_score (fst c) r = true
                                 /\ title r = Some t)
         /\ snd c = List.length titles)
    (score_counts gas).
Proof.
  unfold score_counts. apply Forall_map, Forall_forall. intros k _. simpl.
  destruct (unique_strings_spec (map title (group_rows k gas))) as [Hnd Hin].
  exists (unique_strings (map title (group_rows k gas))).
  split; [exact Hnd|]. split; [|reflexivity].
  intros t. rewrite Hin, in_map_iff. unfold group_rows. split.
  - intros (r & Ht & Hr). apply filter_In in Hr. exists r. tauto.
  - intros (r & Hr & Hk & Ht). exists r. split; auto. apply filter_In. auto.
Qed.
